(** * The dependency map generator [tools/gen-deps-md.py]

    A shallow embedding of the script that turns the output of
    [go list -deps -json ./...] into a Markdown dependency map, and the
    properties of its decoding loop, its package scan and its renderer.

    Text is modelled by [string]: a character is a code point below 256,
    strings compare by code point as Python's do.  The JSON decoder of the
    Python standard library is not part of the script: the decoding loop is
    stated over an interface [Decoder] for [JSONDecoder.raw_decode]. *)

From Stdlib Require Import PrimFloat Ascii.
From stdpp Require Import gmap strings list sorting pretty.

#[local] Set Warnings "-clear-no-such-hyp".

(** ** Python values and exceptions *)

(** What [json] decoding yields: [None], [bool], [int], [float], [str],
    [list] and [dict].  A [dict] keeps its keys in insertion order and holds
    each key once. *)
#[local] Unset Elimination Schemes.
Inductive value : Type :=
| PyNone
| PyBool (b : bool)
| PyInt (z : Z)
| PyFloat (f : float)
| PyStr (s : string)
| PyList (l : list value)
| PyDict (d : list (string * value)).
#[local] Set Elimination Schemes.

(** [json.JSONDecodeError(msg, doc, pos)]; [doc] is the buffer being decoded. *)
Record JSONDecodeError : Type := { msg : string; pos : nat }.

Inductive exn : Type :=
| AttributeError
| TypeError
| DecodeError (e : JSONDecodeError).

(** A computation either returns or raises. *)
Inductive result (A : Type) : Type :=
| Ok (a : A)
| Raise (e : exn).
Arguments Ok {A} a.
Arguments Raise {A} e.

Definition bind {A B} (r : result A) (k : A → result B) : result B :=
  match r with
  | Ok a => k a
  | Raise e => Raise e
  end.

Notation "x ←! r ; k" := (bind r (λ x, k))
  (at level 100, r at next level, k at level 200, right associativity).

(** A [for] loop whose body may raise: the first exception ends it. *)
Fixpoint for_each {A S} (body : A → S → result S) (l : list A) (s : S) : result S :=
  match l with
  | [] => Ok s
  | x :: l' => s' ←! body x s; for_each body l' s'
  end.

(** ** String and value primitives used by the script *)

Definition NL : string := String "010"%char "".

(** [s.startswith(prefix)] *)
Definition startswith (s prefix : string) : bool := String.prefix prefix s.

(** [s.split(sep, 1)[0]]: the text before the first [sep], all of [s] when
    there is none. *)
Fixpoint split_head (sep : ascii) (s : string) : string :=
  match s with
  | "" => ""
  | String c s' => if Ascii.eqb c sep then "" else String c (split_head sep s')
  end.

(** [s[n:]] *)
Fixpoint drop_string (n : nat) (s : string) : string :=
  match n, s with
  | 0, _ => s
  | S n', String _ s' => drop_string n' s'
  | S _, "" => ""
  end.

(** [c in s] for a one-character [c]. *)
Fixpoint contains (c : ascii) (s : string) : bool :=
  match s with
  | "" => false
  | String c' s' => Ascii.eqb c' c || contains c s'
  end.

(** [c.isspace()] on code points below 256: TAB to CR, FS to US, space,
    NEL and the no-break space. *)
Definition isspace (c : ascii) : bool :=
  let n := nat_of_ascii c in
  ((9 <=? n) && (n <=? 13) || (28 <=? n) && (n <=? 32) || (n =? 133) || (n =? 160))%nat.

(** [d.get(key, default)] on a [dict]. *)
Fixpoint dict_get (d : list (string * value)) (key : string) (default : value) : value :=
  match d with
  | [] => default
  | (k, v) :: d' => if String.eqb k key then v else dict_get d' key default
  end.

(** [o.get(key, default)]: only a [dict] has the attribute. *)
Definition py_get (o : value) (key : string) (default : value) : result value :=
  match o with
  | PyDict d => Ok (dict_get d key default)
  | _ => Raise AttributeError
  end.

(** Truth value of an object, as [or] tests it. *)
Definition truthy (o : value) : bool :=
  match o with
  | PyNone => false
  | PyBool b => b
  | PyInt z => negb (z =? 0)%Z
  | PyFloat f => negb (PrimFloat.eqb f 0%float)
  | PyStr s => negb (String.eqb s "")
  | PyList l => match l with [] => false | _ => true end
  | PyDict d => match d with [] => false | _ => true end
  end.

(** [a or b] *)
Definition py_or (a b : value) : value := if truthy a then a else b.

Fixpoint chars (s : string) : list string :=
  match s with
  | "" => []
  | String c s' => String c "" :: chars s'
  end.

(** The items a [for] statement draws from an object: the elements of a
    list, the characters of a string, the keys of a dict; anything else is
    not iterable. *)
Definition py_iter (o : value) : result (list value) :=
  match o with
  | PyList l => Ok l
  | PyStr s => Ok (PyStr <$> chars s)
  | PyDict d => Ok ((λ kv, PyStr kv.1) <$> d)
  | _ => Raise TypeError
  end.

(** ** [run_go_list]: decoding the stream of JSON values *)

(** [decoder.raw_decode(s, idx)] returns the value that starts at [idx] and
    the index just past it, or raises [JSONDecodeError].  A value takes at
    least one character. *)
Record Decoder : Type := {
  raw_decode : string → nat → JSONDecodeError + value * nat;
  raw_decode_advances : ∀ s idx obj j, raw_decode s idx = inr (obj, j) → idx < j
}.

(** [while i < len(stdout) and stdout[i].isspace(): i += 1].  The loop runs
    at most [len(stdout) - i] times. *)
Fixpoint skip_space_loop (n : nat) (stdout : string) (i : nat) : nat :=
  match n with
  | 0 => i
  | S n' =>
      match String.get i stdout with
      | Some c => if isspace c then skip_space_loop n' stdout (i + 1) else i
      | None => i
      end
  end.

Definition skip_space (stdout : string) (i : nat) : nat :=
  skip_space_loop (String.length stdout - i) stdout i.

(** The [while i < len(stdout)] loop of [run_go_list]; [None] when [fuel]
    iterations do not finish it. *)
Fixpoint decode_loop (dec : Decoder) (fuel : nat) (stdout : string) (i : nat)
    (packages : list value) : option (result (list value)) :=
  match fuel with
  | 0 => None
  | S fuel' =>
      if decide (i < String.length stdout) then
        let i := skip_space stdout i in
        if decide (String.length stdout ≤ i) then Some (Ok packages)
        else
          match raw_decode dec stdout i with
          | inl e => Some (Raise (DecodeError e))
          | inr (obj, j) => decode_loop dec fuel' stdout j (packages ++ [obj])
          end
      else Some (Ok packages)
  end.

(** [run_go_list] from the captured [stdout] on (running [go list] is left
    to the caller). *)
Definition run_go_list (dec : Decoder) (stdout : string) : option (result (list value)) :=
  decode_loop dec (S (String.length stdout)) stdout 0 [].

(** ** [main]: the package scan *)

Definition MODULE : string := "github.com/example/ktl".

(** The three [defaultdict(set)] tables. *)
Record tables : Type := {
  internal_deps_by_pkg : gmap string (gset string);
  stdlib_deps_by_pkg : gmap string (gset string);
  third_party_deps_by_pkg : gmap string (gset string)
}.

Definition no_tables : tables :=
  {| internal_deps_by_pkg := ∅; stdlib_deps_by_pkg := ∅; third_party_deps_by_pkg := ∅ |}.

(** [table[key].add(x)] on a [defaultdict(set)]: a missing key starts from
    the empty set. *)
Definition dd_add (key x : string) (table : gmap string (gset string)) : gmap string (gset string) :=
  <[key := default ∅ (table !! key) ∪ {[x]}]> table.

(** [table.get(key, set())] *)
Definition dd_get (table : gmap string (gset string)) (key : string) : gset string :=
  default ∅ (table !! key).

(** The body of [for dep in ...] (lines 46-55), [module] standing for the
    constant [MODULE].  Only a [str] has [startswith]: any other [dep]
    raises [AttributeError] at line 46. *)
Definition scan_dep (module imp_path : string) (dep : value) (t : tables) : result tables :=
  match dep with
  | PyStr d =>
      if startswith d module then
        if negb (String.eqb d imp_path) then
          Ok {| internal_deps_by_pkg := dd_add imp_path d (internal_deps_by_pkg t);
                stdlib_deps_by_pkg := stdlib_deps_by_pkg t;
                third_party_deps_by_pkg := third_party_deps_by_pkg t |}
        else Ok t
      else
        let first := split_head "/" d in
        if contains "." first then
          Ok {| internal_deps_by_pkg := internal_deps_by_pkg t;
                stdlib_deps_by_pkg := stdlib_deps_by_pkg t;
                third_party_deps_by_pkg := dd_add imp_path d (third_party_deps_by_pkg t) |}
        else
          Ok {| internal_deps_by_pkg := internal_deps_by_pkg t;
                stdlib_deps_by_pkg := dd_add imp_path d (stdlib_deps_by_pkg t);
                third_party_deps_by_pkg := third_party_deps_by_pkg t |}
  | _ => Raise AttributeError
  end.

(** The body of [for pkg in packages] (lines 41-55).  An [ImportPath] that
    is not a [str] raises [AttributeError] at line 42. *)
Definition scan_pkg (module : string) (pkg : value) (t : tables) : result tables :=
  imp_path ←! py_get pkg "ImportPath" (PyStr "");
  match imp_path with
  | PyStr ip =>
      if negb (startswith ip module) then Ok t
      else
        deps ←! py_get pkg "Deps" (PyList []);
        items ←! py_iter (py_or deps (PyList []));
        for_each (scan_dep module ip) items t
  | _ => Raise AttributeError
  end.

Definition scan_packages (module : string) (packages : list value) : result tables :=
  for_each (scan_pkg module) packages no_tables.

(** ** [main]: rendering *)

(** [sorted(s)] on a set of strings.  The order is total, so the result does
    not depend on the order in which the set is iterated. *)
Definition sorted (s : gset string) : list string := merge_sort String.le (elements s).

(** Line 57: the keys of the three tables, sorted. *)
Definition pkgs (t : tables) : list string :=
  sorted (dom (internal_deps_by_pkg t) ∪ dom (stdlib_deps_by_pkg t)
          ∪ dom (third_party_deps_by_pkg t)).

(** Lines 59-69. *)
Definition header : list string :=
  [ "# Dependency Map (Generated)" +:+ NL;
    NL;
    "This file is generated. Do not edit by hand." +:+ NL;
    NL;
    "Regenerate with:" +:+ NL;
    NL;
    "```bash" +:+ NL;
    "make deps" +:+ NL;
    "```" +:+ NL;
    NL ].

Definition heading (p : string) : string := "## `" +:+ p +:+ "`" +:+ NL +:+ NL.
Definition item (d : string) : string := "- `" +:+ d +:+ "`" +:+ NL.
Definition more (n : nat) : string := "- ... (" +:+ pretty n +:+ " more)" +:+ NL.
Definition none_line : string := "- (none)" +:+ NL.

(** The truth value of a list: non-empty. *)
Definition nonempty {A} (l : list A) : bool :=
  match l with [] => false | _ => true end.

(** Line 88. *)
Definition cap : nat := 80.

(** Lines 78-84. *)
Definition internal_block (internal : list string) : list string :=
  [ "**Internal deps**" +:+ NL +:+ NL ]
  ++ (if nonempty internal then item <$> internal else [ none_line ])
  ++ [ NL ].

(** Lines 86-95, [c] standing for the constant [cap]. *)
Definition third_party_block (c : nat) (third_party : list string) : list string :=
  [ "**Third-party deps**" +:+ NL +:+ NL ]
  ++ (if nonempty third_party then
        (item <$> take c third_party)
        ++ (if decide (c < length third_party)
            then [ more (length third_party - c) ] else [])
      else [ none_line ])
  ++ [ NL ].

(** Lines 97-102. *)
Definition stdlib_block (stdlib : list string) : list string :=
  [ "**Stdlib deps**" +:+ NL +:+ NL ]
  ++ (if nonempty stdlib then [ "- " +:+ pretty (length stdlib) +:+ " packages" +:+ NL ]
      else [ "- 0 packages" +:+ NL ])
  ++ [ NL ].

(** The body of [for p in pkgs] (lines 72-102). *)
Definition render_pkg (c : nat) (t : tables) (p : string) : list string :=
  let internal := sorted (dd_get (internal_deps_by_pkg t) p) in
  let stdlib := sorted (dd_get (stdlib_deps_by_pkg t) p) in
  let third_party := sorted (dd_get (third_party_deps_by_pkg t) p) in
  [ heading p ] ++ internal_block internal ++ third_party_block c third_party
  ++ stdlib_block stdlib.

(** The list [out] when the loop over [pkgs] ends. *)
Definition render (c : nat) (t : tables) : list string :=
  header ++ concat (render_pkg c t <$> pkgs t).

(** Lines 36-104 of [main]: what is printed for the decoded [packages]. *)
Definition report (module : string) (c : nat) (packages : list value) : result string :=
  t ←! scan_packages module packages;
  Ok (String.concat "" (render c t)).

Definition main_with (dec : Decoder) (module : string) (c : nat) (stdout : string)
    : option (result string) :=
  match run_go_list dec stdout with
  | None => None
  | Some r => Some (packages ←! r; report module c packages)
  end.

(** [main], as a function of the output of [go list]. *)
Definition main (dec : Decoder) (stdout : string) : option (result string) :=
  main_with dec MODULE cap stdout.

(** ** A decoder for a subset of JSON

    An instance of [Decoder] on which the loop can be run: objects, arrays,
    strings without escapes, integers and the three literals, with JSON
    white space between tokens.  It stands in for the library decoder in
    examples only; the positions it reports are those of the value it
    failed to read. *)
Module MiniJSON.

Definition is_ws (c : ascii) : bool :=
  let n := nat_of_ascii c in ((n =? 32) || (n =? 9) || (n =? 10) || (n =? 13))%nat.

Definition is_digit (c : ascii) : bool :=
  let n := nat_of_ascii c in ((48 <=? n) && (n <=? 57))%nat.

Definition DQ : ascii := ascii_of_nat 34.
Definition BACKSLASH : ascii := ascii_of_nat 92.

Fixpoint skip_ws (s : string) : string :=
  match s with
  | String c s' => if is_ws c then skip_ws s' else s
  | "" => ""
  end.

(** The characters up to the closing quote, and what follows it. *)
Fixpoint scan_string (s : string) : option (string * string) :=
  match s with
  | "" => None
  | String c s' =>
      if Ascii.eqb c DQ then Some ("", s')
      else if Ascii.eqb c BACKSLASH then None
      else '(str, r) ← scan_string s'; Some (String c str, r)
  end.

Fixpoint scan_digits (acc : Z) (s : string) : Z * string :=
  match s with
  | String c s' =>
      if is_digit c
      then scan_digits (10 * acc + Z.of_nat (nat_of_ascii c - 48)) s'
      else (acc, s)
  | "" => (acc, "")
  end.

Definition scan_literal (lit : string) (v : value) (s : string) : option (value * string) :=
  if String.prefix lit s then Some (v, drop_string (String.length lit) s) else None.

(** Setting a key of a [dict]: an existing key keeps its place. *)
Fixpoint dict_set (k : string) (v : value) (d : list (string * value)) : list (string * value) :=
  match d with
  | [] => [(k, v)]
  | (k', v') :: d' => if String.eqb k' k then (k, v) :: d' else (k', v') :: dict_set k v d'
  end.

Fixpoint scan_value (fuel : nat) (s : string) : option (value * string) :=
  match fuel with
  | 0 => None
  | S fuel' =>
      match s with
      | "" => None
      | String c s' =>
          if Ascii.eqb c DQ then '(str, r) ← scan_string s'; Some (PyStr str, r)
          else if Ascii.eqb c "{" then
            match skip_ws s' with
            | String "}" r => Some (PyDict [], r)
            | r => scan_members fuel' r []
            end
          else if Ascii.eqb c "[" then
            match skip_ws s' with
            | String "]" r => Some (PyList [], r)
            | r => scan_elements fuel' r []
            end
          else if Ascii.eqb c "-" then
            match s' with
            | String d _ =>
                if is_digit d then let '(z, r) := scan_digits 0 s' in Some (PyInt (- z), r)
                else None
            | "" => None
            end
          else if is_digit c then let '(z, r) := scan_digits 0 s in Some (PyInt z, r)
          else if Ascii.eqb c "n" then scan_literal "null" PyNone s
          else if Ascii.eqb c "t" then scan_literal "true" (PyBool true) s
          else if Ascii.eqb c "f" then scan_literal "false" (PyBool false) s
          else None
      end
  end
with scan_elements (fuel : nat) (s : string) (acc : list value) : option (value * string) :=
  match fuel with
  | 0 => None
  | S fuel' =>
      '(v, r) ← scan_value fuel' s;
      match skip_ws r with
      | String "," r' => scan_elements fuel' (skip_ws r') (acc ++ [v])
      | String "]" r' => Some (PyList (acc ++ [v]), r')
      | _ => None
      end
  end
with scan_members (fuel : nat) (s : string) (acc : list (string * value))
    : option (value * string) :=
  match fuel with
  | 0 => None
  | S fuel' =>
      match s with
      | String c s' =>
          if Ascii.eqb c DQ then
            '(k, r) ← scan_string s';
            match skip_ws r with
            | String ":" r' =>
                '(v, r) ← scan_value fuel' (skip_ws r');
                match skip_ws r with
                | String "," r' => scan_members fuel' (skip_ws r') (dict_set k v acc)
                | String "}" r' => Some (PyDict (dict_set k v acc), r')
                | _ => None
                end
            | _ => None
            end
          else None
      | "" => None
      end
  end.

Definition decode_at (s : string) (idx : nat) : JSONDecodeError + value * nat :=
  match scan_value (S (String.length s)) (drop_string idx s) with
  | Some (v, r) => inr (v, String.length s - String.length r)
  | None => inl {| msg := "Expecting value"; pos := idx |}
  end.

(** Single quotes for double quotes, to write JSON text in examples. *)
Fixpoint text (s : string) : string :=
  match s with
  | "" => ""
  | String c s' => String (if Ascii.eqb c "'" then DQ else c) (text s')
  end.

End MiniJSON.

(** ** The layout of a stream of values *)

Fixpoint all_space (s : string) : bool :=
  match s with
  | "" => true
  | String c s' => isspace c && all_space s'
  end.

(** The characters at the offsets [i] to [k - 1] are all white space. *)
Definition blank (stdout : string) (i k : nat) : bool :=
  all_space (String.substring i (k - i) stdout).

(** A character that is not white space stands at offset [k]. *)
Definition starts_value (stdout : string) (k : nat) : bool :=
  match String.get k stdout with
  | Some c => negb (isspace c)
  | None => false
  end.

(** [value_stream dec stdout i objs e]: from offset [i] the buffer holds the
    values [objs] one after the other, each after a possibly empty run of
    white space (from [i] to where the value starts, [k]) and each ending
    where the decoder says it ends ([j]); [e] is the offset just past the
    last one. *)
Inductive value_stream (dec : Decoder) (stdout : string) : nat → list value → nat → Prop :=
| stream_end i : value_stream dec stdout i [] i
| stream_value i k obj j objs e :
    i ≤ k →
    blank stdout i k = true →
    starts_value stdout k = true →
    raw_decode dec stdout k = inr (obj, j) →
    value_stream dec stdout j objs e →
    value_stream dec stdout i (obj :: objs) e.

(** Nothing but white space from offset [k] to the end of the buffer. *)
Definition blank_from (stdout : string) (k : nat) : Prop :=
  blank stdout k (String.length stdout) = true.

(** ** Packages and edges *)

(** The three kinds of dependency the scan tells apart. *)
Inductive edge_class : Type := Internal | StdLib | ThirdParty.

Global Instance edge_class_eq_dec : EqDecision edge_class.
Proof. solve_decision. Defined.

(** The table that records the edges of a class. *)
Definition table (c : edge_class) (t : tables) : gmap string (gset string) :=
  match c with
  | Internal => internal_deps_by_pkg t
  | StdLib => stdlib_deps_by_pkg t
  | ThirdParty => third_party_deps_by_pkg t
  end.

(** The edges of class [c] that leave [p]: [table.get(p, set())]. *)
Definition edges (c : edge_class) (t : tables) (p : string) : gset string :=
  dd_get (table c t) p.

Definition add_edge (c : edge_class) (imp_path d : string) (t : tables) : tables :=
  match c with
  | Internal =>
      {| internal_deps_by_pkg := dd_add imp_path d (internal_deps_by_pkg t);
         stdlib_deps_by_pkg := stdlib_deps_by_pkg t;
         third_party_deps_by_pkg := third_party_deps_by_pkg t |}
  | StdLib =>
      {| internal_deps_by_pkg := internal_deps_by_pkg t;
         stdlib_deps_by_pkg := dd_add imp_path d (stdlib_deps_by_pkg t);
         third_party_deps_by_pkg := third_party_deps_by_pkg t |}
  | ThirdParty =>
      {| internal_deps_by_pkg := internal_deps_by_pkg t;
         stdlib_deps_by_pkg := stdlib_deps_by_pkg t;
         third_party_deps_by_pkg := dd_add imp_path d (third_party_deps_by_pkg t) |}
  end.

(** The decision tree of lines 46-55 on its own: the class of a dependency
    [d] under the prefix [module]. *)
Definition classify (module d : string) : edge_class :=
  if startswith d module then Internal
  else if contains "." (split_head "/" d) then ThirdParty
  else StdLib.

(** The edge that [scan_dep] records for the dependency [d] of [imp_path]:
    none for the package itself. *)
Definition edge (module imp_path d : string) : option edge_class :=
  match classify module d with
  | Internal => if String.eqb d imp_path then None else Some Internal
  | c => Some c
  end.

Definition put (module imp_path : string) (t : tables) (d : string) : tables :=
  match edge module imp_path d with
  | Some c => add_edge c imp_path d t
  | None => t
  end.

(** A package object as [go list -json] writes it, read the way [main]
    reads it: [ImportPath] is a string ([""] when absent), [Deps] an array
    of strings (empty when absent or [null]). *)
Definition as_str (v : value) : option string :=
  match v with PyStr s => Some s | _ => None end.

Definition as_package (pkg : value) : option (string * list string) :=
  match pkg with
  | PyDict d =>
      ip ← as_str (dict_get d "ImportPath" (PyStr ""));
      deps ← match dict_get d "Deps" (PyList []) with
              | PyNone => Some []
              | PyList l => mapM as_str l
              | _ => None
              end;
      Some (ip, deps)
  | _ => None
  end.

(** What the scan does with a package read as above. *)
Definition scan_record (module : string) (t : tables) (r : string * list string) : tables :=
  if startswith r.1 module then foldl (put module r.1) t r.2 else t.

(** Every key of a table holds at least one edge. *)
Definition tables_wf (t : tables) : Prop :=
  ∀ c p X, table c t !! p = Some X → X ≠ ∅.

(** The raw dependency identifiers of the node [p]: those of every record
    whose [ImportPath] is [p]. *)
Definition raw_deps (rs : list (string * list string)) (p : string) : gset string :=
  ⋃ ((λ r : string * list string, if decide (r.1 = p) then list_to_set r.2 else ∅) <$> rs).

(** The boundary rule in the words of the specification: [s] begins with
    [prefix], and what follows the prefix is the end of the string or a path
    separator.  The script has no such test. *)
Definition at_path_boundary (s prefix : string) : bool :=
  startswith s prefix
  && match drop_string (String.length prefix) s with
     | "" => true
     | String c _ => Ascii.eqb c "/"
     end.

(** Strictly before, in the order [sorted] uses. *)
Definition str_lt : relation string := strict String.le.

(** Reading the chunks of [out] back: the section headings and the
    dependency lines. *)
Definition is_heading (chunk : string) : bool := String.prefix "## `" chunk.
Definition is_item (chunk : string) : bool := String.prefix "- `" chunk.

Definition headings (out : list string) : list string :=
  filter (λ chunk, Is_true (is_heading chunk)) out.
Definition items (out : list string) : list string :=
  filter (λ chunk, Is_true (is_item chunk)) out.

(** The same records up to the order of the records and the order of the
    dependencies within each. *)
Definition reordered (rs1 rs2 : list (string * list string)) : Prop :=
  ∃ rs, Forall2 (λ r r', r.1 = r'.1 ∧ r.2 ≡ₚ r'.2) rs1 rs ∧ rs ≡ₚ rs2.

(** ** Example inputs *)

(** A package object with the two fields that [main] reads. *)
Definition package (imp_path : string) (deps : list string) : value :=
  PyDict [("ImportPath", PyStr imp_path); ("Deps", PyList (PyStr <$> deps))].

(** The two records of the first scenario, as text and decoded. *)
Definition two_records_text : string :=
  MiniJSON.text
    "{'ImportPath':'example.com/mod/a','Deps':['example.com/mod/b','fmt','github.com/x/y']}{'ImportPath':'example.com/mod/b','Deps':[]}".

Definition two_records : list value :=
  [ package "example.com/mod/a" ["example.com/mod/b"; "fmt"; "github.com/x/y"];
    package "example.com/mod/b" [] ].

(** The same two records as [main] reads them. *)
Definition two_records_read : list (string * list string) :=
  [ ("example.com/mod/a", ["example.com/mod/b"; "fmt"; "github.com/x/y"]);
    ("example.com/mod/b", []) ].

(** What a test reads off the tables: the nodes, and the sorted edge lists
    of one of them. *)
Definition nodes_and_edges (module : string) (packages : list value) (p : string)
    : result (list string * (list string * list string * list string)) :=
  t ←! scan_packages module packages;
  Ok (pkgs t, (sorted (edges Internal t p), sorted (edges ThirdParty t p),
               sorted (edges StdLib t p))).

Definition nodes (module : string) (packages : list value) : result (list string) :=
  t ←! scan_packages module packages; Ok (pkgs t).

Definition report_headings (module : string) (c : nat) (packages : list value)
    : result (list string) :=
  t ←! scan_packages module packages; Ok (headings (render c t)).

(** A record followed by an object that is cut short. *)
Definition truncated_text : string :=
  MiniJSON.text "{'ImportPath':'example.com/mod/a'} {'Deps': ".

(** Three values with white space before, between and after some of them. *)
Definition spaced_text : string :=
  MiniJSON.text (" {'ImportPath':'example.com/mod/a'}" +:+ NL +:+ "[1, 2]7 ").

(** Ninety distinct third-party dependencies of one package. *)
Definition ninety : list string :=
  (λ n : nat, "example.org/p" +:+ pretty n) <$> seq 0 90.

Definition ninety_tables : tables :=
  foldl (put "example.com/mod" "example.com/mod/a") no_tables ninety.

(** ** [run_go_list]: the [go list] process *)

(** What [proc.communicate()] and [proc.returncode] give once the command
    has ended. *)
Record process : Type := {
  proc_stdout : string;
  proc_stderr : string;
  returncode : Z
}.

(** [raise SystemExit(code)] *)
Inductive SystemExit : Type := Exit (code : string).

Fixpoint lstrip (s : string) : string :=
  match s with
  | "" => ""
  | String c s' => if isspace c then lstrip s' else s
  end.

Fixpoint rstrip (s : string) : string :=
  match s with
  | "" => ""
  | String c s' =>
      match rstrip s' with
      | "" => if isspace c then "" else String c ""
      | r => String c r
      end
  end.

(** [s.strip()]: white space is what [isspace] accepts. *)
Definition strip (s : string) : string := rstrip (lstrip s).

(** Lines 15-16: the argument of [SystemExit]. *)
Definition exit_code (proc : process) : string :=
  let message := strip (proc_stderr proc) in
  if negb (String.eqb message "") then message
  else "go list failed: " +:+ pretty (returncode proc).

(** [run_go_list] from the ended process on (lines 15-30). *)
Definition run_go_list_proc (dec : Decoder) (proc : process)
    : SystemExit + option (result (list value)) :=
  if negb (returncode proc =? 0)%Z then inl (Exit (exit_code proc))
  else inr (run_go_list dec (proc_stdout proc)).

(** [main] from the ended process on. *)
Definition main_proc (dec : Decoder) (proc : process)
    : SystemExit + option (result string) :=
  match run_go_list_proc dec proc with
  | inl e => inl e
  | inr None => inr None
  | inr (Some r) => inr (Some (packages ←! r; report MODULE cap packages))
  end.

(** ** Reading single fields of a decoded value *)

Definition is_dict (v : value) : bool :=
  match v with PyDict _ => true | _ => false end.

(** The [ImportPath] of an object when it is a string, [""] standing for a
    missing one as in [pkg.get("ImportPath", "")]. *)
Definition import_path_of (pkg : value) : option string :=
  match pkg with
  | PyDict d => as_str (dict_get d "ImportPath" (PyStr ""))
  | _ => None
  end.


(** What the scan keeps true of the tables: every key holds an edge, every
    edge leaves a package that begins with the module prefix and leads to
    another identifier, and it is filed under the class of that identifier. *)
Definition scan_invariant (module : string) (t : tables) : Prop :=
  tables_wf t
  ∧ ∀ c p d, d ∈ edges c t p →
      startswith p module = true ∧ d ≠ p ∧ classify module d = c.

(** ** The subset decoder with the positions of the library decoder

    The same subset of JSON, read with the failure reports of the library
    decoder ([json.decoder], CPython 3.11): the message, and the offset at
    which the text stops being a JSON value, which is the offset the
    decoder was called at only when no value can start there at all.  A
    failure is kept as the message and the text left at that point.  As in
    [MiniJSON], strings have no escapes and numbers are integers. *)
Module PosJSON.

Definition failure : Type := string * string.

Definition scan_literal (lit : string) (v : value) (s : string) : failure + value * string :=
  match MiniJSON.scan_literal lit v s with
  | Some r => inr r
  | None => inl ("Expecting value", s)
  end.

(** An integer without its sign: a lone [0], or digits that do not begin
    with [0]. *)
Definition scan_int (s : string) : option (Z * string) :=
  match s with
  | String c s' =>
      if Ascii.eqb c "0" then Some (0%Z, s')
      else if MiniJSON.is_digit c then Some (MiniJSON.scan_digits 0 s)
      else None
  | "" => None
  end.

Fixpoint scan_value (fuel : nat) (s : string) : failure + value * string :=
  match fuel with
  | 0 => inl ("Expecting value", s)
  | S fuel' =>
      match s with
      | "" => inl ("Expecting value", s)
      | String c s' =>
          if Ascii.eqb c MiniJSON.DQ then
            match MiniJSON.scan_string s' with
            | Some (str, r) => inr (PyStr str, r)
            | None => inl ("Unterminated string starting at", s)
            end
          else if Ascii.eqb c "{" then
            match MiniJSON.skip_ws s' with
            | String "}" r => inr (PyDict [], r)
            | r => scan_members fuel' r []
            end
          else if Ascii.eqb c "[" then
            match MiniJSON.skip_ws s' with
            | String "]" r => inr (PyList [], r)
            | r => scan_elements fuel' r []
            end
          else if Ascii.eqb c "-" then
            match scan_int s' with
            | Some (z, r) => inr (PyInt (- z), r)
            | None => inl ("Expecting value", s)
            end
          else if MiniJSON.is_digit c then
            match scan_int s with
            | Some (z, r) => inr (PyInt z, r)
            | None => inl ("Expecting value", s)
            end
          else if Ascii.eqb c "n" then scan_literal "null" PyNone s
          else if Ascii.eqb c "t" then scan_literal "true" (PyBool true) s
          else if Ascii.eqb c "f" then scan_literal "false" (PyBool false) s
          else inl ("Expecting value", s)
      end
  end
with scan_elements (fuel : nat) (s : string) (acc : list value) : failure + value * string :=
  match fuel with
  | 0 => inl ("Expecting value", s)
  | S fuel' =>
      match scan_value fuel' s with
      | inl f => inl f
      | inr (v, r) =>
          match MiniJSON.skip_ws r with
          | String "," r' => scan_elements fuel' (MiniJSON.skip_ws r') (acc ++ [v])
          | String "]" r' => inr (PyList (acc ++ [v]), r')
          | r0 => inl ("Expecting ',' delimiter", r0)
          end
      end
  end
with scan_members (fuel : nat) (s : string) (acc : list (string * value))
    : failure + value * string :=
  match fuel with
  | 0 => inl ("Expecting value", s)
  | S fuel' =>
      match s with
      | String c s' =>
          if Ascii.eqb c MiniJSON.DQ then
            match MiniJSON.scan_string s' with
            | None => inl ("Unterminated string starting at", s)
            | Some (k, r) =>
                match MiniJSON.skip_ws r with
                | String ":" r' =>
                    match scan_value fuel' (MiniJSON.skip_ws r') with
                    | inl f => inl f
                    | inr (v, r) =>
                        match MiniJSON.skip_ws r with
                        | String "," r' =>
                            scan_members fuel' (MiniJSON.skip_ws r') (MiniJSON.dict_set k v acc)
                        | String "}" r' => inr (PyDict (MiniJSON.dict_set k v acc), r')
                        | r0 => inl ("Expecting ',' delimiter", r0)
                        end
                    end
                | r0 => inl ("Expecting ':' delimiter", r0)
                end
            end
          else inl ("Expecting property name enclosed in double quotes", s)
      | "" => inl ("Expecting property name enclosed in double quotes", s)
      end
  end.

Definition decode_at (s : string) (idx : nat) : JSONDecodeError + value * nat :=
  match scan_value (S (String.length s)) (drop_string idx s) with
  | inr (v, r) => inr (v, String.length s - String.length r)
  | inl (m, r) => inl {| msg := m; pos := String.length s - String.length r |}
  end.

End PosJSON.
(** ** The subset decoder advances

    Every value it reads takes at least one character, which makes it a
    [Decoder]. *)
Module MiniJSONFacts.
Import MiniJSON.

Lemma skip_ws_length s : String.length (skip_ws s) ≤ String.length s.
Proof. induction s as [|c s IH]; simpl; [lia|]. destruct (is_ws c); simpl; lia. Qed.

Lemma scan_string_length s str r :
  scan_string s = Some (str, r) → String.length r < String.length s.
Proof.
  revert str r. induction s as [|c s IH]; intros str r; simpl; [done|].
  destruct (Ascii.eqb c DQ); [intros [= _ <-]; lia|].
  destruct (Ascii.eqb c BACKSLASH); [done|].
  destruct (scan_string s) as [[str' r']|] eqn:E; simpl; [|done].
  intros [= _ <-]. specialize (IH _ _ eq_refl). lia.
Qed.

Lemma scan_digits_length acc s z r :
  scan_digits acc s = (z, r) → String.length r ≤ String.length s.
Proof.
  revert acc. induction s as [|c s IH]; intros acc; simpl.
  - intros [= _ <-]. simpl. lia.
  - destruct (is_digit c).
    + intros H%IH. lia.
    + intros [= _ <-]. simpl. lia.
Qed.

Lemma drop_string_length n s :
  String.length (drop_string n s) = String.length s - n.
Proof. revert s. induction n as [|n IH]; intros [|c s]; simpl; auto with lia. Qed.

Lemma prefix_length lit s :
  String.prefix lit s = true → String.length lit ≤ String.length s.
Proof.
  revert s. induction lit as [|c lit IH]; intros [|c' s]; simpl; try (done || lia).
  destruct (ascii_dec c c'); [|done]. intros H%IH. lia.
Qed.

Lemma scan_literal_length lit v s v' r :
  0 < String.length lit →
  scan_literal lit v s = Some (v', r) → String.length r < String.length s.
Proof.
  unfold scan_literal. intros Hlit.
  destruct (String.prefix lit s) eqn:E; [|done].
  intros [= _ <-]. apply prefix_length in E. rewrite drop_string_length. lia.
Qed.

Lemma scan_length fuel :
  (∀ s v r, scan_value fuel s = Some (v, r) → String.length r < String.length s)
  ∧ (∀ s acc v r, scan_elements fuel s acc = Some (v, r) → String.length r < String.length s)
  ∧ (∀ s acc v r, scan_members fuel s acc = Some (v, r) → String.length r < String.length s).
Proof.
  induction fuel as [|fuel (IHv & IHe & IHm)]; [by repeat split|].
  split_and!.
  - intros [|c s] v r; simpl; [done|].
    destruct (Ascii.eqb c DQ).
    { destruct (scan_string s) as [[str r']|] eqn:E; simpl; [|done].
      intros [= _ <-]. apply scan_string_length in E. lia. }
    destruct (Ascii.eqb c "{").
    { pose proof (skip_ws_length s) as Hws.
      destruct (skip_ws s) as [|c' r'] eqn:E.
      - intros H%IHm. simpl in *. lia.
      - assert (∀ x, scan_members fuel (String c' r') [] = Some x →
                     String.length x.2 < S (String.length s)) as Hm.
        { intros [v' r''] H%IHm. simpl in *. lia. }
        destruct c' as [[] [] [] [] [] [] [] []];
          try (intros H; apply (Hm _ H)).
        intros [= _ <-]. simpl in *. lia. }
    destruct (Ascii.eqb c "[").
    { pose proof (skip_ws_length s) as Hws.
      destruct (skip_ws s) as [|c' r'] eqn:E.
      - intros H%IHe. simpl in *. lia.
      - assert (∀ x, scan_elements fuel (String c' r') [] = Some x →
                     String.length x.2 < S (String.length s)) as Hm.
        { intros [v' r''] H%IHe. simpl in *. lia. }
        destruct c' as [[] [] [] [] [] [] [] []];
          try (intros H; apply (Hm _ H)).
        intros [= _ <-]. simpl in *. lia. }
    destruct (Ascii.eqb c "-").
    { destruct s as [|d s]; [done|]. destruct (is_digit d) eqn:Ed; [|done].
      destruct (scan_digits 0 (String d s)) as [z r'] eqn:E.
      intros [= _ <-]. apply scan_digits_length in E. simpl in *. lia. }
    destruct (is_digit c) eqn:Ec.
    { destruct (scan_digits _ s) as [z r'] eqn:E.
      intros [= _ <-]. apply scan_digits_length in E. lia. }
    repeat (match goal with |- context [if ?b then _ else _] => destruct b end);
      try done; intros H%scan_literal_length; simpl in *; lia.
  - intros s acc v r. simpl.
    destruct (scan_value fuel s) as [[v' r']|] eqn:E; simpl; [|done].
    apply IHv in E. pose proof (skip_ws_length r') as Hws.
    destruct (skip_ws r') as [|c' r''] eqn:E'; [done|].
    assert (∀ x, scan_elements fuel (skip_ws r'') (acc ++ [v']) = Some x →
                 String.length x.2 < String.length s) as Hm.
    { intros [v'' r3] H%IHe. pose proof (skip_ws_length r''). simpl in *. lia. }
    destruct c' as [[] [] [] [] [] [] [] []]; try done;
      try (intros H; apply (Hm _ H)).
    intros [= _ <-]. simpl in *. lia.
  - intros [|c s] acc v r; simpl; [done|].
    destruct (Ascii.eqb c DQ); [|done].
    destruct (scan_string s) as [[k r1]|] eqn:E1; simpl; [|done].
    apply scan_string_length in E1. pose proof (skip_ws_length r1) as Hws1.
    destruct (skip_ws r1) as [|c1 r2] eqn:E2; [done|].
    assert (∀ x, ('(v0, r0) ← scan_value fuel (skip_ws r2);
               match skip_ws r0 with
               | String "," r' => scan_members fuel (skip_ws r') (dict_set k v0 acc)
               | String "}" r' => Some (PyDict (dict_set k v0 acc), r')
               | _ => None
               end) = Some x → String.length x.2 < S (String.length s)) as Hm.
    { intros [v'' r3].
      destruct (scan_value fuel (skip_ws r2)) as [[v0 r0]|] eqn:E3; simpl; [|done].
      apply IHv in E3. pose proof (skip_ws_length r2) as Hws2.
      pose proof (skip_ws_length r0) as Hws0.
      destruct (skip_ws r0) as [|c0 r4] eqn:E4; [done|].
      assert (∀ x, scan_members fuel (skip_ws r4) (dict_set k v0 acc) = Some x →
                 String.length x.2 < S (String.length s)) as Hm.
      { intros [v5 r5] H%IHm. pose proof (skip_ws_length r4). simpl in *. lia. }
      destruct c0 as [[] [] [] [] [] [] [] []]; try done;
        try (intros H; apply (Hm _ H)).
      intros [= _ <-]. simpl in *. lia. }
    destruct c1 as [[] [] [] [] [] [] [] []]; try done.
    intros H; apply (Hm _ H).
Qed.

Lemma decode_at_advances s idx obj j :
  decode_at s idx = inr (obj, j) → idx < j.
Proof.
  unfold decode_at.
  destruct (scan_value _ _) as [[v r]|] eqn:E; [|done].
  intros [= _ <-]. apply scan_length in E. rewrite drop_string_length in E. lia.
Qed.
End MiniJSONFacts.

Definition mini : Decoder :=
  {| raw_decode := MiniJSON.decode_at;
     raw_decode_advances := MiniJSONFacts.decode_at_advances |}.

(** ** The positional decoder advances *)
Module PosJSONFacts.
Import MiniJSON MiniJSONFacts.

Lemma pos_scan_int_length s z r :
  PosJSON.scan_int s = Some (z, r) → String.length r < String.length s.
Proof.
  destruct s as [|c s]; simpl; [done|].
  destruct (Ascii.eqb c "0"); [intros [= _ <-]; lia|].
  destruct (is_digit c) eqn:Ec; [|done].
  destruct (scan_digits _ s) as [z' r'] eqn:E. intros [= _ <-].
  apply scan_digits_length in E. lia.
Qed.

#[local] Arguments PosJSON.scan_int : simpl never.

Lemma pos_scan_literal_length lit v s v' r :
  0 < String.length lit →
  PosJSON.scan_literal lit v s = inr (v', r) → String.length r < String.length s.
Proof.
  unfold PosJSON.scan_literal. intros Hlit.
  destruct (MiniJSON.scan_literal lit v s) as [[v0 r0]|] eqn:E; [|done].
  intros [= _ <-]. by eapply MiniJSONFacts.scan_literal_length.
Qed.

Lemma pos_scan_length fuel :
  (∀ s v r, PosJSON.scan_value fuel s = inr (v, r) → String.length r < String.length s)
  ∧ (∀ s acc v r, PosJSON.scan_elements fuel s acc = inr (v, r) →
       String.length r < String.length s)
  ∧ (∀ s acc v r, PosJSON.scan_members fuel s acc = inr (v, r) →
       String.length r < String.length s).
Proof.
  induction fuel as [|fuel (IHv & IHe & IHm)]; [by repeat split|].
  split_and!.
  - intros [|c s] v r; simpl; [done|].
    destruct (Ascii.eqb c DQ).
    { destruct (scan_string s) as [[str r']|] eqn:E; [|done].
      intros [= _ <-]. apply scan_string_length in E. lia. }
    destruct (Ascii.eqb c "{").
    { pose proof (skip_ws_length s) as Hws.
      destruct (skip_ws s) as [|c' r'] eqn:E.
      - intros H%IHm. simpl in *. lia.
      - assert (∀ x, PosJSON.scan_members fuel (String c' r') [] = inr x →
                     String.length x.2 < S (String.length s)) as Hm.
        { intros [v' r''] H%IHm. simpl in *. lia. }
        destruct c' as [[] [] [] [] [] [] [] []];
          try (intros H; apply (Hm _ H)).
        intros [= _ <-]. simpl in *. lia. }
    destruct (Ascii.eqb c "[").
    { pose proof (skip_ws_length s) as Hws.
      destruct (skip_ws s) as [|c' r'] eqn:E.
      - intros H%IHe. simpl in *. lia.
      - assert (∀ x, PosJSON.scan_elements fuel (String c' r') [] = inr x →
                     String.length x.2 < S (String.length s)) as Hm.
        { intros [v' r''] H%IHe. simpl in *. lia. }
        destruct c' as [[] [] [] [] [] [] [] []];
          try (intros H; apply (Hm _ H)).
        intros [= _ <-]. simpl in *. lia. }
    destruct (Ascii.eqb c "-").
    { destruct (PosJSON.scan_int s) as [[z r']|] eqn:E; [|done].
      intros [= _ <-]. apply pos_scan_int_length in E. lia. }
    destruct (is_digit c) eqn:Ec.
    { destruct (PosJSON.scan_int (String c s)) as [[z r']|] eqn:E; [|done].
      intros [= _ <-]. apply pos_scan_int_length in E. simpl in E. lia. }
    repeat (match goal with |- context [if ?b then _ else _] => destruct b end);
      try done; intros H%pos_scan_literal_length; simpl in *; lia.
  - intros s acc v r. simpl.
    destruct (PosJSON.scan_value fuel s) as [f|[v' r']] eqn:E; [done|].
    apply IHv in E. pose proof (skip_ws_length r') as Hws.
    destruct (skip_ws r') as [|c' r''] eqn:E'; [done|].
    assert (∀ x, PosJSON.scan_elements fuel (skip_ws r'') (acc ++ [v']) = inr x →
                 String.length x.2 < String.length s) as Hm.
    { intros [v'' r3] H%IHe. pose proof (skip_ws_length r''). simpl in *. lia. }
    destruct c' as [[] [] [] [] [] [] [] []]; try done;
      try (intros H; apply (Hm _ H)).
    intros [= _ <-]. simpl in *. lia.
  - intros [|c s] acc v r; simpl; [done|].
    destruct (Ascii.eqb c DQ); [|done].
    destruct (scan_string s) as [[k r1]|] eqn:E1; [|done].
    apply scan_string_length in E1. pose proof (skip_ws_length r1) as Hws1.
    destruct (skip_ws r1) as [|c1 r2] eqn:E2; [done|].
    assert (∀ x, match PosJSON.scan_value fuel (skip_ws r2) with
                 | inl f => inl f
                 | inr (v0, r0) =>
                     match skip_ws r0 with
                     | String "," r' =>
                         PosJSON.scan_members fuel (skip_ws r') (dict_set k v0 acc)
                     | String "}" r' => inr (PyDict (dict_set k v0 acc), r')
                     | r3 => inl ("Expecting ',' delimiter", r3)
                     end
                 end = inr x → String.length x.2 < S (String.length s)) as Hm.
    { intros [v'' r3].
      destruct (PosJSON.scan_value fuel (skip_ws r2)) as [f|[v0 r0]] eqn:E3; [done|].
      apply IHv in E3. pose proof (skip_ws_length r2) as Hws2.
      pose proof (skip_ws_length r0) as Hws0.
      destruct (skip_ws r0) as [|c0 r4] eqn:E4; [done|].
      assert (∀ x, PosJSON.scan_members fuel (skip_ws r4) (dict_set k v0 acc) = inr x →
                 String.length x.2 < S (String.length s)) as Hm.
      { intros [v5 r5] H%IHm. pose proof (skip_ws_length r4). simpl in *. lia. }
      destruct c0 as [[] [] [] [] [] [] [] []]; try done;
        try (intros H; apply (Hm _ H)).
      intros [= _ <-]. simpl in *. lia. }
    destruct c1 as [[] [] [] [] [] [] [] []]; try done.
    intros H; apply (Hm _ H).
Qed.

Lemma pos_decode_at_advances s idx obj j :
  PosJSON.decode_at s idx = inr (obj, j) → idx < j.
Proof.
  unfold PosJSON.decode_at.
  destruct (PosJSON.scan_value _ _) as [[m r]|[v r]] eqn:E; [done|].
  intros [= _ <-]. apply pos_scan_length in E. rewrite drop_string_length in E. lia.
Qed.
End PosJSONFacts.

(** The subset decoder that reports failures where the library decoder
    does. *)
Definition positional : Decoder :=
  {| raw_decode := PosJSON.decode_at;
     raw_decode_advances := PosJSONFacts.pos_decode_at_advances |}.
(** ** The decoding loop *)
Section decoding.
Context (dec : Decoder).
Implicit Types (stdout : string) (i j k fuel : nat) (packages objs : list value).

Lemma skip_space_loop_ge n stdout i : i ≤ skip_space_loop n stdout i.
Proof.
  revert i. induction n as [|n IH]; intros i; simpl; [lia|].
  destruct (String.get i stdout) as [c|]; [|lia].
  destruct (isspace c); [|lia]. specialize (IH (i + 1)). lia.
Qed.

Lemma skip_space_ge stdout i : i ≤ skip_space stdout i.
Proof. apply skip_space_loop_ge. Qed.

Lemma get_None_length stdout i : String.get i stdout = None → String.length stdout ≤ i.
Proof.
  revert i. induction stdout as [|c s IH]; intros [|i]; simpl; try (done || lia).
  intros H%IH. lia.
Qed.

Lemma get_Some_length stdout i c : String.get i stdout = Some c → i < String.length stdout.
Proof.
  revert i. induction stdout as [|c' s IH]; intros [|i]; simpl; try (done || lia).
  intros H%IH. lia.
Qed.

Lemma get_all_space stdout i c :
  all_space stdout = true → String.get i stdout = Some c → isspace c = true.
Proof.
  revert i. induction stdout as [|c' s IH]; intros i; simpl; [done|].
  intros [Hc Hs]%andb_prop. destruct i as [|i]; [by intros [= <-]|]. by apply IH.
Qed.

Lemma all_space_get (s : string) :
  (∀ m c, String.get m s = Some c → isspace c = true) → all_space s = true.
Proof.
  induction s as [|a s IH]; intros Hall; simpl; [done|].
  rewrite (Hall 0 a eq_refl). simpl. apply IH. intros m c. apply (Hall (S m)).
Qed.

(** [blank] read character by character. *)
Lemma blank_spec stdout i k :
  blank stdout i k = true
  ↔ ∀ n c, i ≤ n < k → String.get n stdout = Some c → isspace c = true.
Proof.
  unfold blank. split.
  - intros Hblank n c Hn Hget. apply (get_all_space _ (n - i) _ Hblank).
    rewrite String.substring_correct1 by lia. by replace (n - i + i) with n by lia.
  - intros Hall. apply all_space_get. intros m c Hm.
    destruct (decide (m < k - i)) as [Hlt|Hge].
    + rewrite String.substring_correct1 in Hm by done. apply (Hall (m + i)); [lia|done].
    + rewrite String.substring_correct2 in Hm by lia. done.
Qed.

(** The inner loop stops at the first character that is not white space. *)
Lemma skip_space_loop_blank n stdout i k :
  i ≤ k → blank stdout i k = true → starts_value stdout k = true →
  k - i < n → skip_space_loop n stdout i = k.
Proof.
  unfold starts_value. rewrite blank_spec. intros Hik Hblank Hk. revert i Hik Hblank.
  induction n as [|n IH]; intros i Hik Hblank Hn; [lia|]. simpl.
  destruct (String.get k stdout) as [ck|] eqn:Hgetk; [|done].
  apply negb_true_iff in Hk. apply get_Some_length in Hgetk as Hlen.
  destruct (decide (i = k)) as [->|Hne].
  - by rewrite Hgetk, Hk.
  - destruct (String.get i stdout) as [c|] eqn:Hget.
    + rewrite (Hblank i c) by (done || lia). apply IH; [lia| |lia].
      intros m c' Hm. apply Hblank. lia.
    + apply get_None_length in Hget. lia.
Qed.

Lemma skip_space_blank stdout i k :
  i ≤ k → blank stdout i k = true → starts_value stdout k = true →
  skip_space stdout i = k.
Proof.
  intros Hik Hblank Hk. apply skip_space_loop_blank; [done..|].
  unfold starts_value in Hk.
  destruct (String.get k stdout) as [c|] eqn:Hget; [|done].
  apply get_Some_length in Hget. lia.
Qed.

Lemma skip_space_loop_all n stdout i :
  blank_from stdout i → String.length stdout - i ≤ n →
  String.length stdout ≤ skip_space_loop n stdout i.
Proof.
  unfold blank_from. rewrite blank_spec. revert i.
  induction n as [|n IH]; intros i Hall Hn; simpl; [lia|].
  destruct (String.get i stdout) as [c|] eqn:Hget.
  - pose proof (get_Some_length _ _ _ Hget) as Hlt.
    rewrite (Hall i c) by (done || lia). apply IH; [|lia].
    intros m c' Hm. apply Hall. lia.
  - by apply get_None_length.
Qed.

Lemma skip_space_all stdout k : blank_from stdout k → String.length stdout ≤ skip_space stdout k.
Proof. intros Hall. by apply skip_space_loop_all. Qed.

(** One more iteration is all that is left between the values and the end. *)
Lemma decode_loop_stream stdout i objs e :
  value_stream dec stdout i objs e →
  ∀ fuel packages, String.length stdout - i < fuel →
    ∃ fuel', 0 < fuel' ∧
      decode_loop dec fuel stdout i packages
      = decode_loop dec fuel' stdout e (packages ++ objs).
Proof.
  induction 1 as [i|i k obj j objs e Hik Hblank Hk Hdec _ IH]; intros fuel packages Hfuel.
  - exists fuel. rewrite app_nil_r. split; [lia|done].
  - pose proof (skip_space_blank _ _ _ Hik Hblank Hk) as Hskip.
    pose proof (raw_decode_advances dec _ _ _ _ Hdec) as Hadv.
    assert (k < String.length stdout) as Hlt.
    { unfold starts_value in Hk. destruct (String.get k stdout) eqn:Hget; [|done].
      by apply get_Some_length in Hget. }
    destruct fuel as [|fuel]; [lia|].
    destruct (IH fuel (packages ++ [obj])) as (fuel' & Hpos & Heq); [lia|].
    exists fuel'. split; [done|]. simpl. rewrite Hskip.
    rewrite decide_True by lia. rewrite decide_False by lia.
    rewrite Hdec, Heq, <-app_assoc. done.
Qed.

Lemma decode_loop_blank stdout k fuel packages :
  blank_from stdout k → 0 < fuel →
  decode_loop dec fuel stdout k packages = Some (Ok packages).
Proof.
  intros Hblank%skip_space_all Hfuel.
  destruct fuel as [|fuel]; [lia|]. simpl.
  destruct (decide (k < String.length stdout)); [|done].
  by rewrite decide_True.
Qed.

Lemma decode_loop_error stdout i k fuel packages err :
  i ≤ k → blank stdout i k = true → starts_value stdout k = true →
  raw_decode dec stdout k = inl err →
  0 < fuel →
  decode_loop dec fuel stdout i packages = Some (Raise (DecodeError err)).
Proof.
  intros Hik Hblank Hk Hdec Hfuel.
  pose proof (skip_space_blank _ _ _ Hik Hblank Hk) as Hskip.
  assert (k < String.length stdout) as Hlt.
  { unfold starts_value in Hk. destruct (String.get k stdout) eqn:Hget; [|done].
    by apply get_Some_length in Hget. }
  destruct fuel as [|fuel]; [lia|]. simpl. rewrite Hskip.
  rewrite decide_True by lia. rewrite decide_False by lia. by rewrite Hdec.
Qed.

(** The loop ends within [len(stdout) - i + 1] iterations. *)
Lemma decode_loop_terminates stdout fuel i packages :
  String.length stdout - i < fuel →
  is_Some (decode_loop dec fuel stdout i packages).
Proof.
  revert i packages. induction fuel as [|fuel IH]; intros i packages Hfuel; [lia|].
  simpl. destruct (decide (i < String.length stdout)); [|done].
  destruct (decide (String.length stdout ≤ skip_space stdout i)); [done|].
  destruct (raw_decode dec stdout (skip_space stdout i)) as [err|[obj j]] eqn:Hdec; [done|].
  apply IH. pose proof (skip_space_ge stdout i).
  pose proof (raw_decode_advances dec _ _ _ _ Hdec). lia.
Qed.

Lemma run_go_list_terminates stdout : is_Some (run_go_list dec stdout).
Proof. apply decode_loop_terminates. lia. Qed.

Lemma main_with_terminates module c stdout : is_Some (main_with dec module c stdout).
Proof.
  unfold main_with. by destruct (run_go_list_terminates stdout) as [r ->].
Qed.

Lemma substring_all stdout : String.substring 0 (String.length stdout) stdout = stdout.
Proof. induction stdout as [|c s IH]; simpl; [done|]. by rewrite IH. Qed.

Lemma all_space_blank stdout : all_space stdout = true → blank_from stdout 0.
Proof.
  intros Hall. unfold blank_from, blank. by rewrite Nat.sub_0_r, substring_all.
Qed.

Lemma run_go_list_stream stdout objs e :
  value_stream dec stdout 0 objs e → blank_from stdout e →
  run_go_list dec stdout = Some (Ok objs).
Proof.
  intros Hstream Hblank. unfold run_go_list.
  destruct (decode_loop_stream _ _ _ _ Hstream (S (String.length stdout)) [])
    as (fuel & Hfuel & ->); [lia|].
  by apply decode_loop_blank.
Qed.

Lemma run_go_list_error stdout objs i k err :
  value_stream dec stdout 0 objs i →
  i ≤ k → blank stdout i k = true → starts_value stdout k = true →
  raw_decode dec stdout k = inl err →
  run_go_list dec stdout = Some (Raise (DecodeError err)).
Proof.
  intros Hstream Hik Hblank Hk Hdec. unfold run_go_list.
  destruct (decode_loop_stream _ _ _ _ Hstream (S (String.length stdout)) [])
    as (fuel & Hfuel & ->); [lia|].
  by eapply decode_loop_error.
Qed.

Lemma run_go_list_blank stdout :
  all_space stdout = true → run_go_list dec stdout = Some (Ok []).
Proof.
  intros Hall. apply (run_go_list_stream stdout [] 0); [constructor|].
  by apply all_space_blank.
Qed.
End decoding.

(** ** The package scan *)

#[global] Arguments scan_dep : simpl never.
#[global] Arguments scan_pkg : simpl never.

Section scan.
Implicit Types (t : tables) (c : edge_class) (p d ip x module : string)
  (deps : list string) (rs : list (string * list string)).

Lemma scan_dep_put module ip d t :
  scan_dep module ip (PyStr d) t = Ok (put module ip t d).
Proof.
  unfold scan_dep, put, edge, classify.
  destruct (startswith d module); simpl.
  - destruct (String.eqb d ip); simpl; done.
  - destruct (contains "." (split_head "/" d)); done.
Qed.

Lemma for_each_scan_dep module ip deps t :
  for_each (scan_dep module ip) (PyStr <$> deps) t = Ok (foldl (put module ip) t deps).
Proof.
  revert t. induction deps as [|d deps IH]; intros t; simpl; [done|].
  rewrite scan_dep_put. simpl. apply IH.
Qed.

Lemma mapM_as_str (l : list value) deps :
  mapM as_str l = Some deps → l = PyStr <$> deps.
Proof.
  intros H%mapM_Some. induction H as [|v d l deps Hv _ IH]; [done|].
  destruct v; by simplify_eq/=.
Qed.

Lemma scan_pkg_record module pkg r t :
  as_package pkg = Some r → scan_pkg module pkg t = Ok (scan_record module t r).
Proof.
  unfold scan_pkg.
  destruct pkg as [| | | | | |dict]; try done. simpl.
  destruct (dict_get dict "ImportPath" (PyStr "")) as [| | | |ip| |]; try done. simpl.
  unfold scan_record.
  destruct (dict_get dict "Deps" (PyList [])) as [| | | | |l|]; try done; simpl.
  - intros [= <-]. simpl. by destruct (startswith ip module).
  - destruct (mapM as_str l) as [deps|] eqn:Hl; [|done]. simpl. intros [= <-]. simpl.
    destruct (startswith ip module); [|done]. simpl.
    apply mapM_as_str in Hl as ->.
    replace (py_or (PyList (PyStr <$> deps)) (PyList [])) with (PyList (PyStr <$> deps))
      by (by destruct deps).
    simpl. apply for_each_scan_dep.
Qed.

Lemma for_each_scan_pkg module (packages : list value) rs t :
  mapM as_package packages = Some rs →
  for_each (scan_pkg module) packages t = Ok (foldl (scan_record module) t rs).
Proof.
  intros H%mapM_Some. revert t.
  induction H as [|pkg r packages rs Hr _ IH]; intros t; simpl; [done|].
  rewrite (scan_pkg_record _ _ _ _ Hr). simpl. apply IH.
Qed.

Lemma scan_packages_records module (packages : list value) rs :
  mapM as_package packages = Some rs →
  scan_packages module packages = Ok (foldl (scan_record module) no_tables rs).
Proof. apply for_each_scan_pkg. Qed.

(** *** Membership in the edge sets *)

Lemma elem_of_dd_add (m : gmap string (gset string)) ip d p x :
  x ∈ dd_get (dd_add ip d m) p ↔ x ∈ dd_get m p ∨ (p = ip ∧ x = d).
Proof.
  unfold dd_get, dd_add. destruct (decide (ip = p)) as [->|Hne].
  - rewrite lookup_insert_eq. simpl. set_solver.
  - rewrite lookup_insert_ne by done. naive_solver.
Qed.

Lemma elem_of_add_edge c c' ip d t p x :
  x ∈ edges c (add_edge c' ip d t) p ↔ x ∈ edges c t p ∨ (c = c' ∧ p = ip ∧ x = d).
Proof.
  unfold edges. destruct c, c'; simpl; rewrite ?elem_of_dd_add; naive_solver.
Qed.

Lemma elem_of_put module ip t d c p x :
  x ∈ edges c (put module ip t d) p
  ↔ x ∈ edges c t p ∨ (p = ip ∧ x = d ∧ edge module ip d = Some c).
Proof.
  unfold put. destruct (edge module ip d) as [c'|].
  - rewrite elem_of_add_edge. naive_solver.
  - naive_solver.
Qed.

Lemma elem_of_foldl_put module ip deps t c p x :
  x ∈ edges c (foldl (put module ip) t deps) p
  ↔ x ∈ edges c t p ∨ (p = ip ∧ x ∈ deps ∧ edge module ip x = Some c).
Proof.
  revert t. induction deps as [|d deps IH]; intros t; simpl.
  - set_solver.
  - rewrite IH, elem_of_put, elem_of_cons. naive_solver.
Qed.

Lemma elem_of_scan_record module t r c p x :
  x ∈ edges c (scan_record module t r) p
  ↔ x ∈ edges c t p
    ∨ (startswith p module = true ∧ p = r.1 ∧ x ∈ r.2 ∧ edge module p x = Some c).
Proof.
  unfold scan_record. destruct (startswith r.1 module) eqn:Hs.
  - rewrite elem_of_foldl_put. split.
    + intros [?|(->&?&?)]; [by left|by right].
    + intros [?|(_&->&?&?)]; [by left|by right].
  - split; [by left|]. intros [?|(Hp&->&_)]; [done|congruence].
Qed.

Lemma elem_of_scan_records module rs t c p x :
  x ∈ edges c (foldl (scan_record module) t rs) p
  ↔ x ∈ edges c t p
    ∨ (startswith p module = true
       ∧ ∃ deps, (p, deps) ∈ rs ∧ x ∈ deps ∧ edge module p x = Some c).
Proof.
  revert t. induction rs as [|[ip deps] rs IH]; intros t; simpl.
  - set_solver.
  - rewrite IH, elem_of_scan_record. simpl. split.
    + intros [[?|(?&->&?&?)]|(?&deps'&?&?&?)]; [by left|right..].
      * split; [done|]. exists deps. set_solver.
      * split; [done|]. exists deps'. set_solver.
    + intros [?|(?&deps'&[[= -> ->]|?]%elem_of_cons&?&?)]; [by left; left|..].
      * left; right. done.
      * right. split; [done|]. by exists deps'.
Qed.

Lemma edges_no_tables c p : edges c no_tables p = ∅.
Proof. by destruct c. Qed.

Lemma elem_of_raw_deps rs p x :
  x ∈ raw_deps rs p ↔ ∃ deps, (p, deps) ∈ rs ∧ x ∈ deps.
Proof.
  unfold raw_deps. rewrite elem_of_union_list. split.
  - intros (X & (r & -> & Hr)%list_elem_of_fmap & Hx).
    destruct r as [ip deps]; simpl in *. case_decide; [|set_solver].
    subst. exists deps. set_solver.
  - intros (deps & Hr & Hx). exists (list_to_set deps). split; [|set_solver].
    apply list_elem_of_fmap. exists (p, deps). simpl. by rewrite decide_True.
Qed.
End scan.

(** ** The first path segment *)
Section segments.
Implicit Types (s d module : string) (sep : ascii).




Lemma classify_out_of_scope module d :
  startswith d module = false →
  classify module d = if contains "." (split_head "/" d) then ThirdParty else StdLib.
Proof. unfold classify. by intros ->. Qed.

End segments.

(** ** Tables whose keys all hold an edge *)
Section tables.
Implicit Types (t : tables) (c : edge_class) (p d ip x module : string)
  (deps : list string) (rs : list (string * list string)).

Lemma no_tables_wf : tables_wf no_tables.
Proof. intros [] p X; simpl; by rewrite lookup_empty. Qed.

Lemma dd_add_nonempty (m : gmap string (gset string)) ip d p X :
  (∀ Y, m !! p = Some Y → Y ≠ ∅) → dd_add ip d m !! p = Some X → X ≠ ∅.
Proof.
  unfold dd_add. intros Hm. destruct (decide (ip = p)) as [->|Hne].
  - rewrite lookup_insert_eq. intros [= <-]. set_solver.
  - rewrite lookup_insert_ne by done. apply Hm.
Qed.

Lemma add_edge_wf c ip d t : tables_wf t → tables_wf (add_edge c ip d t).
Proof.
  intros Hwf c' p X.
  destruct c, c'; simpl; try apply (Hwf Internal); try apply (Hwf StdLib);
    try apply (Hwf ThirdParty); apply dd_add_nonempty; intros Y.
  - apply (Hwf Internal).
  - apply (Hwf StdLib).
  - apply (Hwf ThirdParty).
Qed.

Lemma put_wf module ip t d : tables_wf t → tables_wf (put module ip t d).
Proof. unfold put. destruct (edge module ip d); auto using add_edge_wf. Qed.

Lemma foldl_put_wf module ip deps t :
  tables_wf t → tables_wf (foldl (put module ip) t deps).
Proof. revert t. induction deps; simpl; auto using put_wf. Qed.

Lemma scan_record_wf module t r : tables_wf t → tables_wf (scan_record module t r).
Proof. unfold scan_record. destruct (startswith _ _); auto using foldl_put_wf. Qed.

Lemma scan_records_wf module rs t :
  tables_wf t → tables_wf (foldl (scan_record module) t rs).
Proof. revert t. induction rs; simpl; auto using scan_record_wf. Qed.

Lemma lookup_table_wf t c p :
  tables_wf t →
  table c t !! p = if decide (edges c t p = ∅) then None else Some (edges c t p).
Proof.
  intros Hwf. unfold edges, dd_get. specialize (Hwf c p).
  destruct (table c t !! p) as [X|]; simpl.
  - rewrite decide_False; [done|]. by apply Hwf.
  - by rewrite decide_True.
Qed.

Lemma tables_eq t1 t2 :
  tables_wf t1 → tables_wf t2 →
  (∀ c p, edges c t1 p = edges c t2 p) → t1 = t2.
Proof.
  intros Hwf1 Hwf2 Heq.
  assert (∀ c, table c t1 = table c t2) as Htab.
  { intros c. apply map_eq. intros p.
    rewrite !lookup_table_wf by done. by rewrite Heq. }
  destruct t1, t2. pose proof (Htab Internal). pose proof (Htab StdLib).
  pose proof (Htab ThirdParty). simpl in *. by subst.
Qed.

Lemma elem_of_dom_table t c p :
  tables_wf t → p ∈ dom (table c t) ↔ edges c t p ≠ ∅.
Proof.
  intros Hwf. rewrite elem_of_dom, lookup_table_wf by done.
  case_decide as He; split; by intros Hp.
Qed.
End tables.

(** ** Sorting a set of strings *)
Section sorting.
Implicit Types (s : gset string) (l : list string) (x y : string).

Lemma sorted_perm s : sorted s ≡ₚ elements s.
Proof. apply merge_sort_Permutation. Qed.

Lemma elem_of_sorted s x : x ∈ sorted s ↔ x ∈ s.
Proof. by rewrite sorted_perm, elem_of_elements. Qed.

Lemma sorted_NoDup s : NoDup (sorted s).
Proof. rewrite sorted_perm. apply NoDup_elements. Qed.

Lemma sorted_length s : length (sorted s) = size s.
Proof. by rewrite sorted_perm. Qed.

Lemma sorted_ascending s : StronglySorted String.le (sorted s).
Proof. apply (StronglySorted_merge_sort _). Qed.

Lemma ascending_strict l :
  StronglySorted String.le l → NoDup l → StronglySorted str_lt l.
Proof.
  induction 1 as [|x l _ IH Hx]; intros Hnd; [constructor|].
  apply NoDup_cons in Hnd as [Hnotin Hnd]. constructor; [by apply IH|].
  apply Forall_forall. intros y Hy. split.
  - by eapply Forall_forall in Hx.
  - intros Hyx. eapply Forall_forall in Hx; [|done].
    assert (x = y) as -> by (by apply (anti_symm String.le)). done.
Qed.

Lemma sorted_strict s : StronglySorted str_lt (sorted s).
Proof. apply ascending_strict; [apply sorted_ascending|apply sorted_NoDup]. Qed.

(** Whatever order the set is iterated in, sorting gives [sorted s]. *)
Lemma sorted_unique s l :
  l ≡ₚ elements s → StronglySorted String.le l → l = sorted s.
Proof.
  intros Hperm Hl. apply (StronglySorted_unique String.le); [done|..].
  - apply sorted_ascending.
  - by rewrite sorted_perm.
Qed.

Lemma elem_of_pkgs (t : tables) x :
  x ∈ pkgs t ↔ ∃ c, x ∈ dom (table c t).
Proof.
  unfold pkgs. rewrite elem_of_sorted, !elem_of_union. split.
  - intros [[?|?]|?]; [by exists Internal|by exists StdLib|by exists ThirdParty].
  - intros [[] ?]; auto.
Qed.
End sorting.

(** ** What the scan leaves in the tables *)
Section edges.
Implicit Types (t : tables) (c : edge_class) (p d ip x module : string)
  (deps : list string) (rs : list (string * list string)).

Lemma edge_self module p : startswith p module = true → edge module p p = None.
Proof. unfold edge, classify. intros ->. by rewrite String.eqb_refl. Qed.

Lemma edge_other module p x : x ≠ p → edge module p x = Some (classify module x).
Proof.
  unfold edge. intros Hne%String.eqb_neq.
  destruct (classify module x); by rewrite ?Hne.
Qed.

Lemma edge_Some module p x c :
  startswith p module = true →
  edge module p x = Some c ↔ x ≠ p ∧ c = classify module x.
Proof.
  intros Hp. destruct (decide (x = p)) as [->|Hne].
  - rewrite edge_self by done. naive_solver.
  - rewrite edge_other by done. naive_solver.
Qed.

Lemma classify_Internal module x :
  classify module x = Internal ↔ startswith x module = true.
Proof.
  unfold classify. destruct (startswith x module); [done|].
  by destruct (contains _ _).
Qed.

(** The scan of well-formed package objects completes, and an edge set
    holds exactly the raw dependencies of the node that have its class. *)
Lemma scan_edges module (packages : list value) rs :
  mapM as_package packages = Some rs →
  ∃ t, scan_packages module packages = Ok t ∧ tables_wf t
    ∧ ∀ c p x, x ∈ edges c t p
        ↔ startswith p module = true ∧ x ∈ raw_deps rs p ∧ edge module p x = Some c.
Proof.
  intros Hrs. exists (foldl (scan_record module) no_tables rs). split_and!.
  - by apply scan_packages_records.
  - apply scan_records_wf, no_tables_wf.
  - intros c p x. rewrite elem_of_scan_records, edges_no_tables, elem_of_raw_deps.
    set_solver.
Qed.

Lemma elem_of_pkgs_wf t p :
  tables_wf t → p ∈ pkgs t ↔ ∃ c x, x ∈ edges c t p.
Proof.
  intros Hwf. rewrite elem_of_pkgs. split.
  - intros [c Hc]. exists c. apply elem_of_dom_table in Hc; [|done].
    by apply set_choose_L.
  - intros (c & x & Hx). exists c. apply elem_of_dom_table; [done|]. set_solver.
Qed.
End edges.

(** ** The chunks of the report *)
Section rendering.
Implicit Types (t : tables) (p d : string) (l out : list string) (c : nat).

Lemma filter_nil_Forall (P : string → bool) out :
  Forall (λ chunk, P chunk = false) out → filter (λ chunk, Is_true (P chunk)) out = [].
Proof.
  induction 1 as [|chunk out Hc _ IH]; [done|].
  rewrite filter_cons_False; [done|]. rewrite Hc. by intros [].
Qed.

Lemma filter_all_Forall (P : string → bool) out :
  Forall (λ chunk, P chunk = true) out → filter (λ chunk, Is_true (P chunk)) out = out.
Proof.
  induction 1 as [|chunk out Hc _ IH]; [done|].
  rewrite filter_cons_True; [by rewrite IH|]. by rewrite Hc.
Qed.

Lemma Forall_item (P : string → bool) l :
  (∀ d, P (item d) = true) → Forall (λ chunk, P chunk = true) (item <$> l).
Proof. intros HP. apply Forall_fmap, Forall_forall. intros d _. apply HP. Qed.

Lemma Forall_not_item (P : string → bool) l :
  (∀ d, P (item d) = false) → Forall (λ chunk, P chunk = false) (item <$> l).
Proof. intros HP. apply Forall_fmap, Forall_forall. intros d _. apply HP. Qed.

Lemma headings_internal_block l : headings (internal_block l) = [].
Proof.
  apply filter_nil_Forall. unfold internal_block.
  apply Forall_app; split; [by repeat constructor|].
  apply Forall_app; split; [|by repeat constructor].
  destruct (nonempty l); [by apply (Forall_not_item is_heading)|by repeat constructor].
Qed.

Lemma headings_third_party_block c l : headings (third_party_block c l) = [].
Proof.
  apply filter_nil_Forall. unfold third_party_block.
  apply Forall_app; split; [by repeat constructor|].
  apply Forall_app; split; [|by repeat constructor].
  destruct (nonempty l); [|by repeat constructor].
  apply Forall_app; split; [by apply (Forall_not_item is_heading)|].
  case_decide; by repeat constructor.
Qed.

Lemma headings_stdlib_block l : headings (stdlib_block l) = [].
Proof.
  apply filter_nil_Forall. unfold stdlib_block.
  apply Forall_app; split; [by repeat constructor|].
  apply Forall_app; split; [|by repeat constructor].
  destruct (nonempty l); by repeat constructor.
Qed.

Lemma headings_app out1 out2 : headings (out1 ++ out2) = headings out1 ++ headings out2.
Proof. apply filter_app. Qed.

Lemma is_heading_heading p : is_heading (heading p) = true.
Proof. by destruct p. Qed.

Lemma is_item_item d : is_item (item d) = true.
Proof. by destruct d. Qed.

Lemma headings_heading p out : headings (heading p :: out) = heading p :: headings out.
Proof.
  unfold headings. rewrite filter_cons_True; [done|]. by rewrite is_heading_heading.
Qed.

Lemma headings_render_pkg c t p : headings (render_pkg c t p) = [heading p].
Proof.
  unfold render_pkg. cbv zeta. rewrite !headings_app.
  rewrite headings_internal_block, headings_third_party_block, headings_stdlib_block.
  by rewrite headings_heading.
Qed.

Lemma headings_sections c t l :
  headings (concat (render_pkg c t <$> l)) = heading <$> l.
Proof.
  induction l as [|p l IH]; [done|]. rewrite fmap_cons, concat_cons.
  by rewrite headings_app, IH, headings_render_pkg.
Qed.

Lemma headings_header : headings header = [].
Proof. by apply filter_nil_Forall; repeat constructor. Qed.

Lemma headings_render c t : headings (render c t) = heading <$> pkgs t.
Proof.
  unfold render. by rewrite headings_app, headings_sections, headings_header.
Qed.

Lemma items_app out1 out2 : items (out1 ++ out2) = items out1 ++ items out2.
Proof. apply filter_app. Qed.

Lemma items_items l : items (item <$> l) = item <$> l.
Proof. apply filter_all_Forall, (Forall_item is_item), is_item_item. Qed.

Lemma items_other out : Forall (λ chunk, is_item chunk = false) out → items out = [].
Proof. apply filter_nil_Forall. Qed.

Lemma items_internal_block l : items (internal_block l) = item <$> l.
Proof.
  unfold internal_block. rewrite !items_app.
  rewrite (items_other [_]), (items_other [NL]) by (by repeat constructor).
  destruct l as [|d l]; [done|]. simpl nonempty. cbv iota.
  by rewrite items_items, app_nil_r.
Qed.

Lemma items_third_party_block c l :
  items (third_party_block c l) = item <$> take c l.
Proof.
  unfold third_party_block. rewrite !items_app.
  rewrite (items_other [_]), (items_other [NL]) by (by repeat constructor).
  destruct l as [|d l]; [by rewrite take_nil|]. simpl nonempty. cbv iota.
  rewrite items_app, items_items, app_nil_r. simpl.
  case_decide; [|by rewrite app_nil_r].
  rewrite (items_other [_]) by (by repeat constructor). by rewrite app_nil_r.
Qed.
End rendering.

Section blocks.
Implicit Types (t : tables) (p d : string) (l out : list string) (c : nat).

Lemma render_pkg_blocks c t p :
  render_pkg c t p
  = [ heading p ] ++ internal_block (sorted (edges Internal t p))
    ++ third_party_block c (sorted (edges ThirdParty t p))
    ++ stdlib_block (sorted (edges StdLib t p)).
Proof. done. Qed.

Lemma third_party_block_over c l :
  c < length l →
  third_party_block c l
  = [ "**Third-party deps**" +:+ NL +:+ NL ] ++ (item <$> take c l)
    ++ [ more (length l - c) ] ++ [ NL ].
Proof.
  intros Hc. unfold third_party_block.
  destruct l as [|d l]; [simpl in Hc; lia|]. simpl nonempty. cbv iota.
  rewrite decide_True by done. by rewrite <-!app_assoc.
Qed.
End blocks.

Section order.
Implicit Types (rs : list (string * list string)) (p x : string).

Lemma StronglySorted_take {A} (R : relation A) (l : list A) n :
  StronglySorted R l → StronglySorted R (take n l).
Proof.
  intros Hl. revert n. induction Hl as [|a l _ IH Ha]; intros [|n]; simpl;
    try constructor; [apply IH|].
  eapply Forall_forall. intros b Hb. eapply Forall_forall in Ha; [done|].
  by eapply subseteq_take.
Qed.

Lemma raw_deps_cons (r : string * list string) rs p :
  raw_deps (r :: rs) p
  = (if decide (r.1 = p) then list_to_set r.2 else ∅) ∪ raw_deps rs p.
Proof. done. Qed.

Lemma raw_deps_Forall2 rs1 rs2 p :
  Forall2 (λ r r', r.1 = r'.1 ∧ r.2 ≡ₚ r'.2) rs1 rs2 →
  raw_deps rs1 p = raw_deps rs2 p.
Proof.
  induction 1 as [|r r' rs1 rs2 [Hip Hdeps] _ IH]; [done|].
  rewrite !raw_deps_cons, IH, Hip. f_equal. case_decide; [|done].
  apply set_eq. intros x. by rewrite !elem_of_list_to_set, Hdeps.
Qed.

Lemma raw_deps_perm rs1 rs2 p : rs1 ≡ₚ rs2 → raw_deps rs1 p = raw_deps rs2 p.
Proof.
  intros Hperm. apply set_eq. intros x. rewrite !elem_of_raw_deps.
  by setoid_rewrite Hperm.
Qed.

Lemma raw_deps_reordered rs1 rs2 p :
  reordered rs1 rs2 → raw_deps rs1 p = raw_deps rs2 p.
Proof.
  intros (rs & Hdeps & Hperm).
  by rewrite (raw_deps_Forall2 _ _ _ Hdeps), (raw_deps_perm _ _ _ Hperm).
Qed.
End order.

(** ** Scope and classification *)

(** C1, as the specification states it, fails on the script: under the
    prefix [example.com/mod] the dependency [example.com/mod2/a] does not
    continue the prefix at a path boundary, yet it is classified Internal
    and recorded as an internal edge, never as a third-party one; and a
    record whose [ImportPath] is [example.com/mod2/a] is in scope. *)
Lemma boundary_rule_not_applied :
  at_path_boundary "example.com/mod2/a" "example.com/mod" = false
  ∧ classify "example.com/mod" "example.com/mod2/a" = Internal
  ∧ nodes_and_edges "example.com/mod"
      [package "example.com/mod/a" ["example.com/mod2/a"]] "example.com/mod/a"
    = Ok (["example.com/mod/a"], (["example.com/mod2/a"], [], []))
  ∧ nodes_and_edges "example.com/mod"
      [package "example.com/mod2/a" ["fmt"]] "example.com/mod2/a"
    = Ok (["example.com/mod2/a"], ([], [], ["fmt"])).
Proof. by vm_compute. Qed.

(** C1 (amended): scope and classification use a plain prefix test.  A
    record is scanned exactly when its [ImportPath] begins with the module
    prefix, so every node begins with it; and a dependency is an Internal
    edge of a node exactly when node and dependency both begin with the
    prefix, the dependency is among the node's raw dependencies and is not
    the node itself.  No path boundary is looked at: under [example.com/mod]
    the dependency [example.com/mod2/a] is Internal. *)
Theorem scope_is_prefix module (packages : list value) rs :
  mapM as_package packages = Some rs →
  ∃ t, scan_packages module packages = Ok t
    ∧ (∀ pkg ip deps t0, as_package pkg = Some (ip, deps) →
         scan_pkg module pkg t0
         = Ok (if startswith ip module then foldl (put module ip) t0 deps else t0))
    ∧ (∀ p, p ∈ pkgs t → startswith p module = true)
    ∧ (∀ p d, d ∈ edges Internal t p
         ↔ startswith p module = true ∧ startswith d module = true
           ∧ d ∈ raw_deps rs p ∧ d ≠ p)
    ∧ classify "example.com/mod" "example.com/mod2/a" = Internal.
Proof.
  intros Hrs. destruct (scan_edges module _ _ Hrs) as (t & Hscan & Hwf & Hedges).
  exists t. split_and!; [done|..|done].
  - intros pkg ip deps t0 Hpkg. by rewrite (scan_pkg_record module _ _ t0 Hpkg).
  - intros p (c & x & Hx)%elem_of_pkgs_wf; [|done]. by apply Hedges in Hx as [? _].
  - intros p d. rewrite Hedges. split.
    + intros (Hp & Hd & He). apply edge_Some in He as [? Hc]; [|done].
      symmetry in Hc. by apply classify_Internal in Hc.
    + intros (Hp & Hd & Hraw & Hne). split_and!; [done..|].
      apply edge_Some; [done|]. split; [done|]. symmetry. by apply classify_Internal.
Qed.

(** The two records of the first scenario under the prefix
    [example.com/mod]. *)
Lemma scope_is_prefix_witness :
  ∃ t, scan_packages "example.com/mod" two_records = Ok t
    ∧ (∀ pkg ip deps t0, as_package pkg = Some (ip, deps) →
         scan_pkg "example.com/mod" pkg t0
         = Ok (if startswith ip "example.com/mod"
               then foldl (put "example.com/mod" ip) t0 deps else t0))
    ∧ (∀ p, p ∈ pkgs t → startswith p "example.com/mod" = true)
    ∧ (∀ p d, d ∈ edges Internal t p
         ↔ startswith p "example.com/mod" = true ∧ startswith d "example.com/mod" = true
           ∧ d ∈ raw_deps two_records_read p ∧ d ≠ p)
    ∧ classify "example.com/mod" "example.com/mod2/a" = Internal.
Proof. apply (scope_is_prefix "example.com/mod" two_records). reflexivity. Defined.

(** ** Nodes *)

(** C2, as the specification states it, fails on the script: the buffer of
    the first scenario decodes to its two records, both in scope, but the
    graph has the single node [example.com/mod/a]; [example.com/mod/b],
    whose [Deps] is empty, is no key of any table and gets no section. *)
Lemma empty_deps_record_is_no_node :
  run_go_list mini two_records_text = Some (Ok two_records)
  ∧ startswith "example.com/mod/b" "example.com/mod" = true
  ∧ nodes_and_edges "example.com/mod" two_records "example.com/mod/a"
    = Ok (["example.com/mod/a"], (["example.com/mod/b"], ["github.com/x/y"], ["fmt"]))
  ∧ report_headings "example.com/mod" cap two_records
    = Ok [heading "example.com/mod/a"].
Proof. by vm_compute. Qed.

(** C2 (amended): the nodes of the graph, each with a section of its own in
    the report, are the in-scope identifiers with at least one raw
    dependency other than themselves; an in-scope record whose dependency
    list is empty adds no node.  For the two records of the first scenario
    the only node is [example.com/mod/a]. *)
Theorem nodes_have_an_edge module c (packages : list value) rs :
  mapM as_package packages = Some rs →
  ∃ t, scan_packages module packages = Ok t
    ∧ (∀ p, p ∈ pkgs t ↔ startswith p module = true ∧ raw_deps rs p ∖ {[p]} ≠ ∅)
    ∧ headings (render c t) = heading <$> pkgs t
    ∧ (∀ p, raw_deps rs p = ∅ → p ∉ pkgs t)
    ∧ nodes "example.com/mod" two_records
      = Ok ["example.com/mod/a"].
Proof.
  intros Hrs. destruct (scan_edges module _ _ Hrs) as (t & Hscan & Hwf & Hedges).
  assert (∀ p, p ∈ pkgs t ↔ startswith p module = true ∧ raw_deps rs p ∖ {[p]} ≠ ∅)
    as Hnodes.
  { intros p. rewrite elem_of_pkgs_wf by done. split.
    - intros (k & x & Hx). apply Hedges in Hx as (Hp & Hraw & He).
      apply edge_Some in He as [Hne _]; [|done]. split; [done|]. set_solver.
    - intros [Hp [x Hx]%set_choose_L]. apply elem_of_difference in Hx as [Hraw Hne].
      exists (classify module x), x. apply Hedges. split_and!; [done..|].
      apply edge_other. set_solver. }
  exists t. split_and!; [done|done|apply headings_render| |by vm_compute].
  intros p Hraw. rewrite Hnodes, Hraw. intros [_ Hne]. apply Hne. set_solver.
Qed.

(** The two records of the first scenario: one node. *)
Lemma nodes_have_an_edge_witness :
  ∃ t, scan_packages "example.com/mod" two_records = Ok t
    ∧ (∀ p, p ∈ pkgs t ↔ startswith p "example.com/mod" = true
         ∧ raw_deps two_records_read p ∖ {[p]} ≠ ∅)
    ∧ headings (render cap t) = heading <$> pkgs t
    ∧ (∀ p, raw_deps two_records_read p = ∅ → p ∉ pkgs t)
    ∧ nodes "example.com/mod" two_records
      = Ok ["example.com/mod/a"].
Proof. apply (nodes_have_an_edge "example.com/mod" cap two_records). reflexivity. Defined.

(** ** Edge sets *)

(** C3: for every in-scope node the three edge sets are pairwise disjoint,
    none of them holds the node itself, and together they are exactly the
    node's raw dependency identifiers without the node's own. *)
Theorem edge_sets_partition module (packages : list value) rs :
  mapM as_package packages = Some rs →
  ∃ t, scan_packages module packages = Ok t
    ∧ ∀ p, startswith p module = true →
        edges Internal t p ## edges ThirdParty t p
        ∧ edges Internal t p ## edges StdLib t p
        ∧ edges ThirdParty t p ## edges StdLib t p
        ∧ (p ∉ edges Internal t p ∪ edges ThirdParty t p ∪ edges StdLib t p)
        ∧ edges Internal t p ∪ edges ThirdParty t p ∪ edges StdLib t p
          = raw_deps rs p ∖ {[p]}.
Proof.
  intros Hrs. destruct (scan_edges module _ _ Hrs) as (t & Hscan & Hwf & Hedges).
  exists t. split; [done|]. intros p Hp.
  assert (∀ k x, x ∈ edges k t p ↔ x ∈ raw_deps rs p ∧ x ≠ p ∧ k = classify module x)
    as Hin.
  { intros k x. rewrite Hedges, edge_Some by done. naive_solver. }
  split_and!.
  - intros x [_ [_ H1]]%Hin [_ [_ H2]]%Hin. congruence.
  - intros x [_ [_ H1]]%Hin [_ [_ H2]]%Hin. congruence.
  - intros x [_ [_ H1]]%Hin [_ [_ H2]]%Hin. congruence.
  - rewrite !elem_of_union, !Hin. naive_solver.
  - apply set_eq. intros x.
    rewrite !elem_of_union, !Hin, elem_of_difference, elem_of_singleton.
    destruct (classify module x); naive_solver.
Qed.

(** The two records of the first scenario. *)
Lemma edge_sets_partition_witness :
  ∃ t, scan_packages "example.com/mod" two_records = Ok t
    ∧ ∀ p, startswith p "example.com/mod" = true →
        edges Internal t p ## edges ThirdParty t p
        ∧ edges Internal t p ## edges StdLib t p
        ∧ edges ThirdParty t p ## edges StdLib t p
        ∧ (p ∉ edges Internal t p ∪ edges ThirdParty t p ∪ edges StdLib t p)
        ∧ edges Internal t p ∪ edges ThirdParty t p ∪ edges StdLib t p
          = raw_deps two_records_read p ∖ {[p]}.
Proof. apply (edge_sets_partition "example.com/mod" two_records). reflexivity. Defined.

(** ** Values that are no package records *)




(** ** Decoding failures *)

(** C5, as the specification states it, fails on the script: the error does
    not carry the offset of the value that cannot be decoded.  In
    [truncated_text] a record ends at offset 34 and, after one space, an
    object that is cut short starts at offset 35; the decoder reports the
    failure where the text stops being valid, at offset 44, and
    [run_go_list] and [main] pass that error on as it is. *)
Lemma decode_error_carries_the_decoders_offset :
  raw_decode positional truncated_text 0
  = inr (PyDict [("ImportPath", PyStr "example.com/mod/a")], 34)
  ∧ blank truncated_text 34 35 = true
  ∧ starts_value truncated_text 35 = true
  ∧ raw_decode positional truncated_text 35
    = inl {| msg := "Expecting value"; pos := 44 |}
  ∧ run_go_list positional truncated_text
    = Some (Raise (DecodeError {| msg := "Expecting value"; pos := 44 |}))
  ∧ main positional truncated_text
    = Some (Raise (DecodeError {| msg := "Expecting value"; pos := 44 |})).
Proof. by vm_compute. Qed.

(** C5 (amended): when the values [objs] have been decoded and the next
    character that is not white space, at offset [k], starts no valid value,
    so that the decoder raises there, [run_go_list] raises that very error,
    with the position and the message the decoder gave it, whatever that
    position is; the values decoded so far are dropped, and [main] ends
    with the error and prints nothing. *)
Theorem decode_failure dec module c stdout objs i k err :
  value_stream dec stdout 0 objs i →
  i ≤ k → blank stdout i k = true → starts_value stdout k = true →
  raw_decode dec stdout k = inl err →
  run_go_list dec stdout = Some (Raise (DecodeError err))
  ∧ main_with dec module c stdout = Some (Raise (DecodeError err)).
Proof.
  intros Hstream Hik Hblank Hk Hdec.
  pose proof (run_go_list_error dec _ _ _ _ _ Hstream Hik Hblank Hk Hdec) as Hrun.
  split; [done|]. unfold main_with. by rewrite Hrun.
Qed.

(** A record, a space, and an object that starts at offset 35 and is cut
    short at offset 44. *)
Lemma decode_failure_witness :
  run_go_list positional truncated_text
  = Some (Raise (DecodeError {| msg := "Expecting value"; pos := 44 |}))
  ∧ main_with positional "example.com/mod" cap truncated_text
    = Some (Raise (DecodeError {| msg := "Expecting value"; pos := 44 |})).
Proof.
  apply (decode_failure positional "example.com/mod" cap truncated_text
           [PyDict [("ImportPath", PyStr "example.com/mod/a")]] 34 35).
  - apply (stream_value positional _ 0 0 _ 34); [lia|reflexivity..|].
    apply stream_end.
  - lia.
  - reflexivity.
  - reflexivity.
  - reflexivity.
Defined.

(** ** Dependencies out of scope *)



(** ** Streams of values *)

(** C9: a buffer that holds the values [objs] one after the other, each
    after any run of white space or none, with only white space after the
    last, decodes to [objs] in that order; no enclosing list is needed.  An
    empty or all-blank buffer decodes to no record, the tables stay empty,
    there is no node, and the report is the header alone. *)
Theorem decode_stream dec module c stdout :
  (∀ objs e, value_stream dec stdout 0 objs e → blank_from stdout e →
     run_go_list dec stdout = Some (Ok objs))
  ∧ (all_space stdout = true →
     run_go_list dec stdout = Some (Ok [])
     ∧ scan_packages module [] = Ok no_tables
     ∧ pkgs no_tables = []
     ∧ main_with dec module c stdout = Some (Ok (String.concat "" header))).
Proof.
  split.
  - intros objs e. apply run_go_list_stream.
  - intros Hall. pose proof (run_go_list_blank dec _ Hall) as Hrun.
    split_and!; [done..|]. unfold main_with. by rewrite Hrun.
Qed.

(** Values back to back, values with white space around them, the empty
    buffer and a blank one. *)
Lemma decode_stream_witness :
  run_go_list mini two_records_text = Some (Ok two_records)
  ∧ run_go_list mini spaced_text
    = Some (Ok [PyDict [("ImportPath", PyStr "example.com/mod/a")];
                PyList [PyInt 1; PyInt 2]; PyInt 7])
  ∧ run_go_list mini "" = Some (Ok [])
  ∧ (run_go_list mini ("  " +:+ NL) = Some (Ok [])
     ∧ scan_packages MODULE [] = Ok no_tables
     ∧ pkgs no_tables = []
     ∧ main mini ("  " +:+ NL) = Some (Ok (String.concat "" header))).
Proof.
  split; [|split; [|split]].
  - apply (proj1 (decode_stream mini MODULE cap two_records_text) _ 130).
    + apply (stream_value mini _ 0 0 _ 86); [lia|reflexivity..|].
      apply (stream_value mini _ 86 86 _ 130); [lia|reflexivity..|].
      apply stream_end.
    + reflexivity.
  - apply (proj1 (decode_stream mini MODULE cap spaced_text) _ 43).
    + apply (stream_value mini _ 0 1 _ 35); [lia|reflexivity..|].
      apply (stream_value mini _ 35 36 _ 42); [lia|reflexivity..|].
      apply (stream_value mini _ 42 42 _ 43); [lia|reflexivity..|].
      apply stream_end.
    + reflexivity.
  - apply (proj2 (decode_stream mini MODULE cap "")). reflexivity.
  - apply (proj2 (decode_stream mini MODULE cap ("  " +:+ NL))). reflexivity.
Defined.

(** ** The third-party cap *)

(** C7: when a package has more third-party edges than the cap, its section
    lists the first [cap] of them in sorted order, then one marker with the
    number left out, [k - cap]; ninety edges under the cap of eighty give
    eighty lines and the marker [10 more]. *)
Theorem third_party_truncated c t p :
  c < size (edges ThirdParty t p) →
  render_pkg c t p
  = [ heading p ] ++ internal_block (sorted (edges Internal t p))
    ++ ([ "**Third-party deps**" +:+ NL +:+ NL ]
        ++ (item <$> take c (sorted (edges ThirdParty t p)))
        ++ [ more (size (edges ThirdParty t p) - c) ]
        ++ [ NL ])
    ++ stdlib_block (sorted (edges StdLib t p))
  ∧ length (take c (sorted (edges ThirdParty t p))) = c
  ∧ StronglySorted str_lt (sorted (edges ThirdParty t p))
  ∧ more (90 - cap) = "- ... (10 more)" +:+ NL.
Proof.
  intros Hk. split_and!; [|..|done].
  - rewrite render_pkg_blocks, third_party_block_over by (rewrite sorted_length; lia).
    by rewrite sorted_length.
  - rewrite length_take, sorted_length. lia.
  - apply sorted_strict.
Qed.

(** Ninety third-party edges under the cap of eighty. *)
Lemma third_party_truncated_witness :
  (render_pkg cap ninety_tables "example.com/mod/a"
   = [ heading "example.com/mod/a" ]
     ++ internal_block (sorted (edges Internal ninety_tables "example.com/mod/a"))
     ++ ([ "**Third-party deps**" +:+ NL +:+ NL ]
         ++ (item <$> take cap (sorted (edges ThirdParty ninety_tables "example.com/mod/a")))
         ++ [ more (size (edges ThirdParty ninety_tables "example.com/mod/a") - cap) ]
         ++ [ NL ])
     ++ stdlib_block (sorted (edges StdLib ninety_tables "example.com/mod/a"))
   ∧ length (take cap (sorted (edges ThirdParty ninety_tables "example.com/mod/a"))) = cap
   ∧ StronglySorted str_lt (sorted (edges ThirdParty ninety_tables "example.com/mod/a"))
   ∧ more (90 - cap) = "- ... (10 more)" +:+ NL)
  ∧ size (edges ThirdParty ninety_tables "example.com/mod/a") = 90
  ∧ length (items (render_pkg cap ninety_tables "example.com/mod/a")) = 80
  ∧ more (size (edges ThirdParty ninety_tables "example.com/mod/a") - cap)
    = "- ... (10 more)" +:+ NL.
Proof.
  split; [|by vm_compute].
  apply (third_party_truncated cap ninety_tables "example.com/mod/a").
  vm_compute. lia.
Defined.

(** ** Order of the report *)

(** C8: the sections of the report come in strictly ascending order of
    package identifier, and within a section the Internal lines and the
    Third-party lines are each in strictly ascending order. *)
Theorem report_is_sorted c t :
  headings (render c t) = heading <$> pkgs t
  ∧ StronglySorted str_lt (pkgs t)
  ∧ ∀ p,
      render_pkg c t p
      = [ heading p ] ++ internal_block (sorted (edges Internal t p))
        ++ third_party_block c (sorted (edges ThirdParty t p))
        ++ stdlib_block (sorted (edges StdLib t p))
      ∧ items (internal_block (sorted (edges Internal t p)))
        = item <$> sorted (edges Internal t p)
      ∧ StronglySorted str_lt (sorted (edges Internal t p))
      ∧ items (third_party_block c (sorted (edges ThirdParty t p)))
        = item <$> take c (sorted (edges ThirdParty t p))
      ∧ StronglySorted str_lt (take c (sorted (edges ThirdParty t p))).
Proof.
  split_and!.
  - apply headings_render.
  - apply sorted_strict.
  - intros p. split_and!.
    + done.
    + apply items_internal_block.
    + apply sorted_strict.
    + apply items_third_party_block.
    + apply StronglySorted_take, sorted_strict.
Qed.

(** ** Order of the input *)

(** C10: two sequences of package records that differ only in the order of
    the records and in the order of the dependencies within a record give
    the same report, character for character. *)
Theorem report_order_independent module c (packages1 packages2 : list value) rs1 rs2 :
  mapM as_package packages1 = Some rs1 →
  mapM as_package packages2 = Some rs2 →
  reordered rs1 rs2 →
  ∃ text, report module c packages1 = Ok text ∧ report module c packages2 = Ok text.
Proof.
  intros Hrs1 Hrs2 Hre.
  destruct (scan_edges module _ _ Hrs1) as (t1 & Hscan1 & Hwf1 & Hedges1).
  destruct (scan_edges module _ _ Hrs2) as (t2 & Hscan2 & Hwf2 & Hedges2).
  assert (t1 = t2) as <-.
  { apply tables_eq; [done..|]. intros k p. apply set_eq. intros x.
    by rewrite Hedges1, Hedges2, (raw_deps_reordered _ _ _ Hre). }
  exists (String.concat "" (render c t1)). unfold report.
  by rewrite Hscan1, Hscan2.
Qed.

(** The two records of the first scenario, swapped, with the dependencies
    of the first one rotated. *)
Lemma report_order_independent_witness :
  ∃ text,
    report "example.com/mod" cap two_records = Ok text
    ∧ report "example.com/mod" cap
        [ package "example.com/mod/b" [];
          package "example.com/mod/a" ["github.com/x/y"; "example.com/mod/b"; "fmt"] ]
      = Ok text.
Proof.
  apply (report_order_independent "example.com/mod" cap _ _
           two_records_read
           [("example.com/mod/b", []);
            ("example.com/mod/a", ["github.com/x/y"; "example.com/mod/b"; "fmt"])]).
  - reflexivity.
  - reflexivity.
  - exists [("example.com/mod/a", ["github.com/x/y"; "example.com/mod/b"; "fmt"]);
            ("example.com/mod/b", [])].
    split.
    + constructor; [split; [reflexivity|]|].
      * symmetry.
        apply (Permutation_cons_append ["example.com/mod/b"; "fmt"] "github.com/x/y").
      * constructor; [split; reflexivity|constructor].
    + apply perm_swap.
Defined.

(** * Further properties of the script *)

(** ** The decoding loop, read backwards *)
Section decoding_sound.
Context (dec : Decoder).
Implicit Types (stdout : string) (i j k fuel : nat) (packages objs : list value).

Lemma skip_space_loop_spec n stdout i :
  String.length stdout - i ≤ n →
  let k := skip_space_loop n stdout i in
  i ≤ k
  ∧ (∀ m c, i ≤ m < k → String.get m stdout = Some c → isspace c = true)
  ∧ (k < String.length stdout → starts_value stdout k = true)
  ∧ (i ≤ String.length stdout → k ≤ String.length stdout)
  ∧ (String.length stdout ≤ i → k = i).
Proof.
  revert i. induction n as [|n IH]; intros i Hn; simpl.
  - split_and!; [lia|intros; lia|lia|lia|done].
  - unfold starts_value.
    destruct (String.get i stdout) as [c|] eqn:Hget.
    + pose proof (get_Some_length _ _ _ Hget) as Hlt.
      destruct (isspace c) eqn:Hc.
      * destruct (IH (i + 1)) as (H1 & H2 & H3 & H4 & H5); [lia|].
        split_and!; [lia| |done|lia|lia].
        intros m c' Hm Hgetm. destruct (decide (m = i)) as [->|Hne].
        -- congruence.
        -- apply (H2 m); [lia|done].
      * split_and!; [lia|intros; lia| |lia|done].
        intros _. by rewrite Hget, Hc.
    + apply get_None_length in Hget.
      split_and!; [lia|intros; lia|lia|lia|done].
Qed.

Lemma skip_space_spec stdout i :
  i ≤ skip_space stdout i
  ∧ blank stdout i (skip_space stdout i) = true
  ∧ (skip_space stdout i < String.length stdout →
     starts_value stdout (skip_space stdout i) = true)
  ∧ (i ≤ String.length stdout → skip_space stdout i ≤ String.length stdout)
  ∧ (String.length stdout ≤ i → skip_space stdout i = i).
Proof.
  destruct (skip_space_loop_spec (String.length stdout - i) stdout i)
    as (H1 & H2 & H3 & H4 & H5); [lia|].
  split_and!; [done| |done..]. by apply blank_spec.
Qed.

(** X1: the inner loop (lines 23-24) returns the first offset from [i] on
    that holds no white space, or the end of the buffer when there is none:
    everything it steps over is white space, it never passes the end, and
    from an offset at or past the end it does not move. *)
Theorem skip_space_first_non_space stdout i :
  i ≤ skip_space stdout i
  ∧ blank stdout i (skip_space stdout i) = true
  ∧ (skip_space stdout i < String.length stdout →
     starts_value stdout (skip_space stdout i) = true)
  ∧ (i ≤ String.length stdout → skip_space stdout i ≤ String.length stdout)
  ∧ (String.length stdout ≤ i → skip_space stdout i = i).
Proof. apply skip_space_spec. Qed.

Lemma blank_to_end stdout i k :
  blank stdout i k = true → String.length stdout ≤ k → blank_from stdout i.
Proof.
  unfold blank_from. rewrite !blank_spec. intros Hblank Hk m c Hm Hget.
  apply (Hblank m); [lia|done].
Qed.

Lemma decode_loop_sound fuel stdout i packages r :
  decode_loop dec fuel stdout i packages = Some r →
  ∃ objs e,
    value_stream dec stdout i objs e
    ∧ ((r = Ok (packages ++ objs) ∧ blank_from stdout e)
       ∨ (∃ k err, r = Raise (DecodeError err) ∧ e ≤ k ∧ blank stdout e k = true
            ∧ starts_value stdout k = true ∧ raw_decode dec stdout k = inl err)).
Proof.
  revert i packages. induction fuel as [|fuel IH]; intros i packages; simpl; [done|].
  destruct (skip_space_spec stdout i) as (H1 & H2 & H3 & H4 & H5).
  destruct (decide (i < String.length stdout)) as [Hi|Hi].
  - destruct (decide (String.length stdout ≤ skip_space stdout i)) as [Hk|Hk].
    + intros [= <-]. exists [], i. split; [constructor|]. left.
      rewrite app_nil_r. split; [done|]. by eapply blank_to_end.
    + destruct (raw_decode dec stdout (skip_space stdout i)) as [err|[obj j]] eqn:Hdec.
      * intros [= <-]. exists [], i. split; [constructor|]. right.
        exists (skip_space stdout i), err. split_and!; [done..|apply H3; lia|done].
      * intros (objs & e & Hstream & Hres)%IH. exists (obj :: objs), e. split.
        -- eapply stream_value; [exact H1|exact H2|apply H3; lia|exact Hdec|exact Hstream].
        -- by rewrite <-app_assoc in Hres.
  - intros [= <-]. exists [], i. split; [constructor|]. left.
    rewrite app_nil_r. split; [done|]. unfold blank_from. apply blank_spec.
    intros m c Hm. lia.
Qed.

(** X2: the decoding loop always ends, for every decoder and every buffer:
    each value takes at least one character, so [len(stdout) + 1]
    iterations are enough; and what [run_go_list] raises, if anything, is
    the decoder's error, never another exception. *)
Theorem run_go_list_ends stdout :
  ∃ r, run_go_list dec stdout = Some r
    ∧ ((∃ objs, r = Ok objs) ∨ (∃ err, r = Raise (DecodeError err))).
Proof.
  destruct (run_go_list_terminates dec stdout) as [r Hr]. exists r. split; [done|].
  apply decode_loop_sound in Hr as (objs & e & _ & [[-> _]|(k & err & -> & _)]).
  - left. by exists ([] ++ objs).
  - right. by exists err.
Qed.

(** X3: what [run_go_list] returns is the whole buffer and nothing else:
    when it returns [objs], the buffer is laid out as these values in this
    order, white space apart, with only white space after the last. *)
Theorem run_go_list_returns_the_stream stdout objs :
  run_go_list dec stdout = Some (Ok objs) →
  ∃ e, value_stream dec stdout 0 objs e ∧ blank_from stdout e.
Proof.
  intros (objs' & e & Hstream & [[[= ->] Hblank]|(k & err & [=] & _)])%decode_loop_sound.
  by exists e.
Qed.

(** X4: when [run_go_list] raises, it is at a character that is not white
    space, reached after decoding some values in full, and the error is the
    one the decoder raised at that character. *)
Theorem run_go_list_raises_at_a_value stdout ex :
  run_go_list dec stdout = Some (Raise ex) →
  ∃ objs e k err,
    ex = DecodeError err
    ∧ value_stream dec stdout 0 objs e
    ∧ e ≤ k ∧ blank stdout e k = true ∧ starts_value stdout k = true
    ∧ raw_decode dec stdout k = inl err.
Proof.
  intros (objs & e & Hstream & [[[=] _]|(k & err & [= ->] & H)])%decode_loop_sound.
  by exists objs, e, k, err.
Qed.
End decoding_sound.

(** The buffer of the first scenario. *)
Lemma run_go_list_returns_the_stream_witness :
  ∃ e, value_stream mini two_records_text 0 two_records e
    ∧ blank_from two_records_text e.
Proof. apply (run_go_list_returns_the_stream mini two_records_text). reflexivity. Defined.

(** A record, a space, and an object cut short. *)
Lemma run_go_list_raises_at_a_value_witness :
  ∃ objs e k err,
    DecodeError {| msg := "Expecting value"; pos := 35 |} = DecodeError err
    ∧ value_stream mini truncated_text 0 objs e
    ∧ e ≤ k ∧ blank truncated_text e k = true ∧ starts_value truncated_text k = true
    ∧ raw_decode mini truncated_text k = inl err.
Proof. apply (run_go_list_raises_at_a_value mini truncated_text). reflexivity. Defined.

(** ** A failed [go list] *)
Section process.
Implicit Types (s : string) (proc : process).

Lemma lstrip_empty s : lstrip s = "" ↔ all_space s = true.
Proof.
  induction s as [|c s IH]; simpl; [done|].
  destruct (isspace c); simpl; [done|]. split; intros; discriminate.
Qed.

Lemma rstrip_empty s : rstrip s = "" ↔ all_space s = true.
Proof.
  induction s as [|c s IH]; simpl; [done|].
  destruct (rstrip s) as [|a r] eqn:E.
  - destruct (isspace c); simpl; [tauto|]. split; intros; discriminate.
  - split; [done|]. intros [_ Hs%IH]%andb_prop. discriminate.
Qed.

Lemma all_space_lstrip s : all_space (lstrip s) = all_space s.
Proof.
  induction s as [|c s IH]; simpl; [done|].
  destruct (isspace c) eqn:E; simpl; [done|]. by rewrite E.
Qed.

Lemma strip_empty s : strip s = "" ↔ all_space s = true.
Proof. unfold strip. by rewrite rstrip_empty, all_space_lstrip. Qed.

Lemma rstrip_cons c s : isspace c = false → rstrip (String c s) = String c (rstrip s).
Proof. intros Hc. simpl. rewrite Hc. by destruct (rstrip s). Qed.

Lemma rstrip_rstrip s : rstrip (rstrip s) = rstrip s.
Proof.
  induction s as [|c s IH]; simpl; [done|].
  destruct (rstrip s) as [|a r] eqn:E.
  - destruct (isspace c) eqn:Hc; simpl; [done|]. by rewrite Hc.
  - simpl in *. by rewrite IH.
Qed.

Lemma lstrip_shape s :
  lstrip s = "" ∨ ∃ c r, lstrip s = String c r ∧ isspace c = false.
Proof.
  induction s as [|c s IH]; simpl; [by left|].
  destruct (isspace c) eqn:Hc; [done|]. right. by exists c, s.
Qed.

Lemma strip_strip s : strip (strip s) = strip s.
Proof.
  unfold strip. destruct (lstrip_shape s) as [->|(c & r & -> & Hc)]; [done|].
  rewrite rstrip_cons by done. simpl lstrip. rewrite Hc.
  by rewrite rstrip_cons, rstrip_rstrip.
Qed.

(** X5: when [go list] ends with a return code other than zero,
    [run_go_list] exits before decoding anything, whatever is on standard
    output, and so does [main].  The exit message is never empty: it is what
    the command wrote to standard error without the white space around it,
    or, when that is blank, the text [go list failed: ] and the return
    code. *)
Theorem failed_go_list_exits dec proc :
  returncode proc ≠ 0%Z →
  ∃ code,
    run_go_list_proc dec proc = inl (Exit code)
    ∧ main_proc dec proc = inl (Exit code)
    ∧ code ≠ ""
    ∧ (if all_space (proc_stderr proc)
       then code = "go list failed: " +:+ pretty (returncode proc)
       else code = strip (proc_stderr proc) ∧ strip code = code).
Proof.
  intros Hrc. exists (exit_code proc).
  assert (run_go_list_proc dec proc = inl (Exit (exit_code proc))) as Hrun.
  { unfold run_go_list_proc. by apply Z.eqb_neq in Hrc as ->. }
  split_and!; [done|by unfold main_proc; rewrite Hrun|..].
  - unfold exit_code. cbv zeta.
    destruct (String.eqb (strip (proc_stderr proc)) "") eqn:E; simpl; [done|].
    by apply String.eqb_neq in E.
  - unfold exit_code. cbv zeta.
    destruct (all_space (proc_stderr proc)) eqn:Hall.
    + apply strip_empty in Hall as ->. done.
    + destruct (String.eqb (strip (proc_stderr proc)) "") eqn:E; simpl.
      * apply String.eqb_eq, strip_empty in E. congruence.
      * split; [done|]. apply strip_strip.
Qed.
End process.

(** A command killed by a signal that wrote nothing, and one that failed
    with a message. *)
Lemma failed_go_list_exits_witness :
  (∃ code,
     run_go_list_proc mini {| proc_stdout := two_records_text; proc_stderr := " " +:+ NL;
                              returncode := -9 |} = inl (Exit code)
     ∧ main_proc mini {| proc_stdout := two_records_text; proc_stderr := " " +:+ NL;
                         returncode := -9 |} = inl (Exit code)
     ∧ code ≠ ""
     ∧ code = "go list failed: " +:+ pretty (-9)%Z)
  ∧ run_go_list_proc mini {| proc_stdout := ""; proc_stderr := " no Go files" +:+ NL;
                             returncode := 1 |}
    = inl (Exit "no Go files")
  ∧ pretty (-9)%Z = "-9".
Proof.
  split; [|by vm_compute].
  apply (failed_go_list_exits mini
           {| proc_stdout := two_records_text; proc_stderr := " " +:+ NL; returncode := -9 |}).
  simpl. lia.
Defined.

(** ** Records out of scope *)
Section out_of_scope.
Implicit Types (t : tables) (p d ip module : string) (pkg : value) (packages : list value).

Lemma scan_pkg_out_of_scope module pkg ip t :
  import_path_of pkg = Some ip → startswith ip module = false →
  scan_pkg module pkg t = Ok t.
Proof.
  destruct pkg as [| | | | | |dict]; try done. simpl. unfold scan_pkg. simpl.
  destruct (dict_get dict "ImportPath" (PyStr "")); try done. simpl.
  intros [= ->] ->. done.
Qed.



(** X7: when no record of the input begins with the module prefix, the
    report is the header and nothing more. *)
Theorem nothing_in_scope_header_only module c packages :
  Forall (λ pkg, ∃ ip, import_path_of pkg = Some ip ∧ startswith ip module = false)
    packages →
  report module c packages = Ok (String.concat "" header).
Proof.
  intros Hall.
  assert (∀ t, for_each (scan_pkg module) packages t = Ok t) as Hscan.
  { induction Hall as [|pkg packages (ip & Hip & Hs) _ IH]; intros t; [done|].
    cbn [for_each]. rewrite (scan_pkg_out_of_scope _ _ _ _ Hip Hs). simpl. apply IH. }
  unfold report, scan_packages. by rewrite Hscan.
Qed.
End out_of_scope.


(** The two records of the first scenario under the script's own prefix. *)
Lemma nothing_in_scope_header_only_witness :
  report MODULE cap two_records = Ok (String.concat "" header).
Proof.
  apply (nothing_in_scope_header_only MODULE cap two_records).
  repeat constructor; eexists; split; reflexivity.
Defined.

(** ** What the report depends on *)
Section edge_pairs.
Implicit Types (t : tables) (p d ip module : string) (rs : list (string * list string)).

(** X8: the report is a function of the set of pairs of an in-scope
    package and one of its dependencies other than itself.  Listing a
    dependency twice, repeating a record, spreading the dependencies of a
    package over several records with the same [ImportPath], or adding
    self-dependencies, changes nothing in the tables or in the report. *)
Theorem report_depends_on_edge_pairs module c (packages1 packages2 : list value) rs1 rs2 :
  mapM as_package packages1 = Some rs1 →
  mapM as_package packages2 = Some rs2 →
  (∀ p, startswith p module = true →
        raw_deps rs1 p ∖ {[p]} = raw_deps rs2 p ∖ {[p]}) →
  scan_packages module packages1 = scan_packages module packages2
  ∧ report module c packages1 = report module c packages2.
Proof.
  intros Hrs1 Hrs2 Hsame.
  destruct (scan_edges module _ _ Hrs1) as (t1 & Hscan1 & Hwf1 & Hedges1).
  destruct (scan_edges module _ _ Hrs2) as (t2 & Hscan2 & Hwf2 & Hedges2).
  assert (t1 = t2) as <-.
  { apply tables_eq; [done..|]. intros k p. apply set_eq. intros x.
    rewrite Hedges1, Hedges2. split.
    - intros (Hp & Hraw & He). split_and!; [done| |done].
      apply edge_Some in He as [Hne _]; [|done]. specialize (Hsame p Hp). set_solver.
    - intros (Hp & Hraw & He). split_and!; [done| |done].
      apply edge_Some in He as [Hne _]; [|done]. specialize (Hsame p Hp). set_solver. }
  unfold report. by rewrite Hscan1, Hscan2.
Qed.

(** X9: a dependency is a ThirdParty edge of a node exactly when the node
    begins with the module prefix, the dependency is among its raw
    dependencies, does not begin with the prefix and has a [.] before its
    first [/]; it is a StdLib edge exactly when, the rest being the same,
    it has no such [.]. *)
Theorem edges_out_of_scope module (packages : list value) rs :
  mapM as_package packages = Some rs →
  ∃ t, scan_packages module packages = Ok t
    ∧ ∀ p d,
        (d ∈ edges ThirdParty t p
         ↔ startswith p module = true ∧ d ∈ raw_deps rs p
           ∧ startswith d module = false ∧ contains "." (split_head "/" d) = true)
        ∧ (d ∈ edges StdLib t p
           ↔ startswith p module = true ∧ d ∈ raw_deps rs p
             ∧ startswith d module = false ∧ contains "." (split_head "/" d) = false).
Proof.
  intros Hrs. destruct (scan_edges module _ _ Hrs) as (t & Hscan & Hwf & Hedges).
  exists t. split; [done|]. intros p d. rewrite !Hedges.
  assert (∀ k, k ≠ Internal →
            (startswith p module = true ∧ d ∈ raw_deps rs p ∧ edge module p d = Some k)
            ↔ (startswith p module = true ∧ d ∈ raw_deps rs p
               ∧ startswith d module = false
               ∧ k = if contains "." (split_head "/" d) then ThirdParty else StdLib))
    as Hk.
  { intros k Hk. split.
    - intros (Hp & Hraw & He). apply edge_Some in He as [Hne ->]; [|done].
      destruct (startswith d module) eqn:Hd.
      + by apply classify_Internal in Hd.
      + by rewrite classify_out_of_scope.
    - intros (Hp & Hraw & Hd & ->). split_and!; [done..|].
      apply edge_Some; [done|]. rewrite classify_out_of_scope by done.
      split; [|done]. intros ->. congruence. }
  rewrite !Hk by done.
  destruct (contains "." (split_head "/" d)); naive_solver.
Qed.
End edge_pairs.

(** The first scenario against the same edges written with a repeated
    dependency, a self-dependency and a second record for the same
    package. *)
Lemma report_depends_on_edge_pairs_witness :
  scan_packages "example.com/mod" two_records
  = scan_packages "example.com/mod"
      [ package "example.com/mod/a" ["fmt"; "example.com/mod/a"; "fmt"];
        package "example.com/mod/b" ["example.com/mod/b"];
        package "example.com/mod/a" ["github.com/x/y"; "example.com/mod/b"] ]
  ∧ report "example.com/mod" cap two_records
    = report "example.com/mod" cap
        [ package "example.com/mod/a" ["fmt"; "example.com/mod/a"; "fmt"];
          package "example.com/mod/b" ["example.com/mod/b"];
          package "example.com/mod/a" ["github.com/x/y"; "example.com/mod/b"] ].
Proof.
  apply (report_depends_on_edge_pairs "example.com/mod" cap _ _
           two_records_read
           [ ("example.com/mod/a", ["fmt"; "example.com/mod/a"; "fmt"]);
             ("example.com/mod/b", ["example.com/mod/b"]);
             ("example.com/mod/a", ["github.com/x/y"; "example.com/mod/b"]) ]).
  - reflexivity.
  - reflexivity.
  - intros p _. destruct (decide (p = "example.com/mod/a")) as [->|Ha].
    { apply (bool_decide_unpack _). by vm_compute. }
    destruct (decide (p = "example.com/mod/b")) as [->|Hb].
    { apply (bool_decide_unpack _). by vm_compute. }
    unfold raw_deps, two_records_read. cbn [fmap list_fmap fst snd].
    by rewrite !decide_False by congruence.
Defined.

(** The two records of the first scenario. *)
Lemma edges_out_of_scope_witness :
  ∃ t, scan_packages "example.com/mod" two_records = Ok t
    ∧ ∀ p d,
        (d ∈ edges ThirdParty t p
         ↔ startswith p "example.com/mod" = true ∧ d ∈ raw_deps two_records_read p
           ∧ startswith d "example.com/mod" = false
           ∧ contains "." (split_head "/" d) = true)
        ∧ (d ∈ edges StdLib t p
           ↔ startswith p "example.com/mod" = true ∧ d ∈ raw_deps two_records_read p
             ∧ startswith d "example.com/mod" = false
             ∧ contains "." (split_head "/" d) = false).
Proof. apply (edges_out_of_scope "example.com/mod" two_records). reflexivity. Defined.

(** ** What the scan keeps true, whatever the values *)
Section invariant.
Implicit Types (t : tables) (p d ip module : string) (pkg dep : value)
  (packages : list value).

Lemma for_each_invariant {A S} (P : S → Prop) (body : A → S → result S) (l : list A) s s' :
  (∀ x s1 s2, body x s1 = Ok s2 → P s1 → P s2) →
  P s → for_each body l s = Ok s' → P s'.
Proof.
  intros Hbody. revert s. induction l as [|x l IH]; intros s Hs; simpl.
  - by intros [= <-].
  - destruct (body x s) as [s1|e] eqn:Hx; simpl; [|done].
    apply IH. by eapply Hbody.
Qed.

Lemma no_tables_invariant module : scan_invariant module no_tables.
Proof.
  split; [apply no_tables_wf|]. intros c p d. rewrite edges_no_tables. set_solver.
Qed.

Lemma scan_dep_invariant module ip dep t t' :
  startswith ip module = true →
  scan_dep module ip dep t = Ok t' →
  scan_invariant module t → scan_invariant module t'.
Proof.
  intros Hip Hdep [Hwf Hedges]. destruct dep as [| | | |d| |]; try done.
  rewrite scan_dep_put in Hdep. injection Hdep as <-. split; [by apply put_wf|].
  intros c p x [Hx|(-> & -> & He)]%elem_of_put; [by apply Hedges|].
  apply edge_Some in He as [Hne ->]; done.
Qed.

Lemma scan_pkg_invariant module pkg t t' :
  scan_pkg module pkg t = Ok t' →
  scan_invariant module t → scan_invariant module t'.
Proof.
  unfold scan_pkg. destruct pkg as [| | | | | |dict]; try done. simpl.
  destruct (dict_get dict "ImportPath" (PyStr "")) as [| | | |ip| |]; try done.
  destruct (startswith ip module) eqn:Hip; simpl; [|by intros [= <-]].
  destruct (py_iter _) as [its|e]; simpl; [|done].
  intros Heach Hinv. revert Heach. apply for_each_invariant; [|done].
  intros dep t1 t2. by apply scan_dep_invariant.
Qed.

Lemma scan_packages_invariant module packages t :
  scan_packages module packages = Ok t → scan_invariant module t.
Proof.
  unfold scan_packages. apply for_each_invariant; [|apply no_tables_invariant].
  intros pkg t1 t2. apply scan_pkg_invariant.
Qed.

(** X10: whenever the scan returns, for any decoded values at all, every
    node begins with the module prefix and has at least one edge, so that
    no section of the report is empty; no node is its own dependency in
    any table; and no identifier is in two tables of the same node. *)
Theorem scan_keeps_tables_sound module packages t :
  scan_packages module packages = Ok t →
  ∀ p,
    (p ∈ pkgs t →
       startswith p module = true
       ∧ edges Internal t p ∪ edges ThirdParty t p ∪ edges StdLib t p ≠ ∅)
    ∧ (p ∉ edges Internal t p ∪ edges ThirdParty t p ∪ edges StdLib t p)
    ∧ edges Internal t p ## edges ThirdParty t p
    ∧ edges Internal t p ## edges StdLib t p
    ∧ edges ThirdParty t p ## edges StdLib t p.
Proof.
  intros [Hwf Hedges]%scan_packages_invariant p. split_and!.
  - intros (k & x & Hx)%elem_of_pkgs_wf; [|done]. split.
    + by apply Hedges in Hx as (? & _).
    + destruct k; set_solver.
  - rewrite !elem_of_union. intros [[Hp|Hp]|Hp]; by apply Hedges in Hp as (_ & ? & _).
  - intros x (_ & _ & H1)%Hedges (_ & _ & H2)%Hedges. congruence.
  - intros x (_ & _ & H1)%Hedges (_ & _ & H2)%Hedges. congruence.
  - intros x (_ & _ & H1)%Hedges (_ & _ & H2)%Hedges. congruence.
Qed.

Lemma scan_pkg_non_object module pkg t :
  is_dict pkg = false → scan_pkg module pkg t = Raise AttributeError.
Proof. by destruct pkg. Qed.

(** X11: one value that is no object, anywhere in the stream, and there is
    no report: the scan raises, at that value or before it, whatever the
    other records are. *)
Theorem non_object_leaves_no_report module c packages pkg :
  pkg ∈ packages → is_dict pkg = false →
  ∃ e, scan_packages module packages = Raise e ∧ report module c packages = Raise e.
Proof.
  intros Hin Hpkg.
  assert (∀ t, ∃ e, for_each (scan_pkg module) packages t = Raise e) as Hscan.
  { induction Hin as [pkg packages|pkg pkg' packages _ IH]; intros t; cbn [for_each].
    - rewrite scan_pkg_non_object by done. by exists AttributeError.
    - destruct (scan_pkg module pkg' t) as [t'|e]; simpl; [by apply IH|by exists e]. }
  destruct (Hscan no_tables) as [e He]. exists e.
  unfold report, scan_packages. by rewrite He.
Qed.
End invariant.

(** A record whose [Deps] is a string is scanned character by character. *)
Lemma scan_keeps_tables_sound_witness :
  ∃ t, scan_packages "example.com/mod"
         [ PyDict [("ImportPath", PyStr "example.com/mod/a"); ("Deps", PyStr "a.b")];
           PyInt 7; PyDict [("ImportPath", PyStr "fmt"); ("Deps", PyInt 7)] ] = Raise AttributeError
       ∧ scan_packages "example.com/mod"
           [ PyDict [("ImportPath", PyStr "example.com/mod/a"); ("Deps", PyStr "a.b")];
             PyDict [("ImportPath", PyStr "fmt"); ("Deps", PyInt 7)] ] = Ok t
       ∧ pkgs t = ["example.com/mod/a"]
       ∧ ∀ p,
           (p ∈ pkgs t →
              startswith p "example.com/mod" = true
              ∧ edges Internal t p ∪ edges ThirdParty t p ∪ edges StdLib t p ≠ ∅)
           ∧ (p ∉ edges Internal t p ∪ edges ThirdParty t p ∪ edges StdLib t p)
           ∧ edges Internal t p ## edges ThirdParty t p
           ∧ edges Internal t p ## edges StdLib t p
           ∧ edges ThirdParty t p ## edges StdLib t p.
Proof.
  eexists. split; [by vm_compute|]. split; [reflexivity|]. split; [by vm_compute|].
  apply (scan_keeps_tables_sound "example.com/mod"
           [ PyDict [("ImportPath", PyStr "example.com/mod/a"); ("Deps", PyStr "a.b")];
             PyDict [("ImportPath", PyStr "fmt"); ("Deps", PyInt 7)] ]).
  reflexivity.
Defined.

(** A bare number after the two records of the first scenario. *)
Lemma non_object_leaves_no_report_witness :
  ∃ e, scan_packages "example.com/mod" (two_records ++ [PyInt 7]) = Raise e
     ∧ report "example.com/mod" cap (two_records ++ [PyInt 7]) = Raise e.
Proof.
  apply (non_object_leaves_no_report "example.com/mod" cap (two_records ++ [PyInt 7])
           (PyInt 7)).
  - apply elem_of_app. right. apply list_elem_of_singleton. reflexivity.
  - reflexivity.
Defined.

(** ** The lines of a section *)
Section lines.
Implicit Types (t : tables) (p d : string) (l out : list string) (c : nat).

(** X12: the Stdlib block always reads [- N packages], [N] being the number
    of distinct standard-library dependencies of the package: the branch
    for an empty set prints the same line as the other would, with [0]. *)
Theorem stdlib_line_counts_distinct t p :
  stdlib_block (sorted (edges StdLib t p))
  = [ "**Stdlib deps**" +:+ NL +:+ NL;
      "- " +:+ pretty (size (edges StdLib t p)) +:+ " packages" +:+ NL;
      NL ].
Proof.
  rewrite <-sorted_length. unfold stdlib_block.
  by destruct (sorted (edges StdLib t p)).
Qed.

Lemma third_party_block_within c l :
  l ≠ [] → length l ≤ c →
  third_party_block c l = [ "**Third-party deps**" +:+ NL +:+ NL ] ++ (item <$> l) ++ [ NL ].
Proof.
  intros Hl Hc. unfold third_party_block. destruct l as [|d l]; [done|].
  simpl nonempty. cbv iota. rewrite decide_False by lia.
  rewrite take_ge by done. by rewrite app_nil_r.
Qed.

(** X13: a package with at least one third-party edge and no more of them
    than the cap has all of them listed, in sorted order, with no marker
    after them; in any case the block never lists more than [cap]
    dependencies. *)
Theorem third_party_within_cap c t p :
  edges ThirdParty t p ≠ ∅ → size (edges ThirdParty t p) ≤ c →
  third_party_block c (sorted (edges ThirdParty t p))
  = [ "**Third-party deps**" +:+ NL +:+ NL ]
    ++ (item <$> sorted (edges ThirdParty t p)) ++ [ NL ]
  ∧ ∀ c' l, length (items (third_party_block c' l)) = c' `min` length l.
Proof.
  intros Hne Hsize. split.
  - apply third_party_block_within; [|by rewrite sorted_length].
    intros Hnil. apply Hne. apply set_eq. intros x.
    rewrite <-elem_of_sorted, Hnil. set_solver.
  - intros c' l. by rewrite items_third_party_block, length_fmap, length_take.
Qed.

Lemma append_nil_r (s : string) : s +:+ "" = s.
Proof.
  induction s as [|a s IH]; [done|].
  change (String a s +:+ "") with (String a (s +:+ "")). by rewrite IH.
Qed.

Lemma append_assoc (s1 s2 s3 : string) : (s1 +:+ s2) +:+ s3 = s1 +:+ (s2 +:+ s3).
Proof.
  induction s1 as [|a s1 IH]; [done|].
  change (String a ((s1 +:+ s2) +:+ s3) = String a (s1 +:+ (s2 +:+ s3))). by rewrite IH.
Qed.

Lemma concat_cons_string (x : string) out :
  String.concat "" (x :: out) = x +:+ String.concat "" out.
Proof.
  destruct out as [|y out]; [|done]. symmetry. apply append_nil_r.
Qed.

Lemma concat_app_string out1 out2 :
  String.concat "" (out1 ++ out2) = String.concat "" out1 +:+ String.concat "" out2.
Proof.
  induction out1 as [|x out1 IH]; [done|].
  rewrite <-app_comm_cons, !concat_cons_string, IH. by rewrite append_assoc.
Qed.

Lemma concat_concat_string (outs : list (list string)) :
  String.concat "" (concat outs) = String.concat "" (String.concat "" <$> outs).
Proof.
  induction outs as [|out outs IH]; [done|].
  rewrite concat_cons, fmap_cons, concat_app_string, concat_cons_string. by rewrite IH.
Qed.

Lemma prefix_append (s r : string) : String.prefix s (s +:+ r) = true.
Proof.
  induction s as [|a s IH]; [by destruct r|].
  change (String.prefix (String a s) (String a (s +:+ r)) = true).
  simpl. by destruct (ascii_dec a a).
Qed.

(** X14: the text printed is the text of the header followed by the texts
    of the sections, one for each node in ascending order; so every report
    begins with the same header, and a graph with no node prints the header
    alone. *)
Theorem report_text_is_header_then_sections module c (packages : list value) text :
  report module c packages = Ok text →
  ∃ t, scan_packages module packages = Ok t
    ∧ text = String.concat "" header
             +:+ String.concat "" ((λ p, String.concat "" (render_pkg c t p)) <$> pkgs t)
    ∧ String.prefix (String.concat "" header) text = true
    ∧ (pkgs t = [] → text = String.concat "" header).
Proof.
  unfold report. destruct (scan_packages module packages) as [t|e]; cbn [bind]; [|done].
  intros Hok. assert (text = String.concat "" (render c t)) as -> by congruence.
  clear Hok. exists t. split; [done|].
  assert (String.concat "" (render c t)
          = String.concat "" header
            +:+ String.concat "" ((λ p, String.concat "" (render_pkg c t p)) <$> pkgs t))
    as Htext.
  { unfold render. by rewrite concat_app_string, concat_concat_string, <-list_fmap_compose. }
  split_and!; [done|..].
  - rewrite Htext. apply prefix_append.
  - intros Hnil. unfold render. by rewrite Hnil, app_nil_r.
Qed.
End lines.

(** The package [example.com/mod/a] of the first scenario has one
    third-party edge. *)
Lemma third_party_within_cap_witness :
  (third_party_block cap
     (sorted (edges ThirdParty
                (foldl (scan_record "example.com/mod") no_tables two_records_read)
                "example.com/mod/a"))
   = [ "**Third-party deps**" +:+ NL +:+ NL ]
     ++ (item <$> sorted (edges ThirdParty
                            (foldl (scan_record "example.com/mod") no_tables two_records_read)
                            "example.com/mod/a"))
     ++ [ NL ]
   ∧ ∀ c' l, length (items (third_party_block c' l)) = c' `min` length l)
  ∧ sorted (edges ThirdParty
              (foldl (scan_record "example.com/mod") no_tables two_records_read)
              "example.com/mod/a")
    = ["github.com/x/y"].
Proof.
  split; [|by vm_compute].
  apply (third_party_within_cap cap
           (foldl (scan_record "example.com/mod") no_tables two_records_read)
           "example.com/mod/a").
  - apply (non_empty_inhabited_L "github.com/x/y"). by vm_compute.
  - vm_compute. lia.
Defined.

(** The report of the first scenario. *)
Lemma report_text_is_header_then_sections_witness :
  ∃ t, scan_packages "example.com/mod" two_records = Ok t
    ∧ String.concat "" (render cap (foldl (scan_record "example.com/mod") no_tables
                                      two_records_read))
      = String.concat "" header
        +:+ String.concat "" ((λ p, String.concat "" (render_pkg cap t p)) <$> pkgs t)
    ∧ String.prefix (String.concat "" header)
        (String.concat "" (render cap (foldl (scan_record "example.com/mod") no_tables
                                         two_records_read))) = true
    ∧ (pkgs t = [] →
       String.concat "" (render cap (foldl (scan_record "example.com/mod") no_tables
                                       two_records_read))
       = String.concat "" header).
Proof.
  apply (report_text_is_header_then_sections "example.com/mod" cap two_records).
  reflexivity.
Defined.
